(** * fsnotify: event bitmask, options, recursion suffix and directory walk

    A shallow embedding of [fsnotify.go] and [utils.go] together with the
    properties the specification states about them.

    - [Op] is Go's [uint32]; it is carried by [Z] and the only operation the
      package performs on it is [&] followed by [==].
    - Go strings are [string]; the byte loops of [path/filepath] run over
      [list ascii].
    - [errors.New] allocates; an error value is its address plus its text.
    - [filepath.Walk] with the callback of [utils.go] appends to a shared
      slice and may end the process through [log.Fatal]; this is a small
      state-and-exit monad. *)

From Stdlib Require Import ZArith List Bool Ascii String Lia.
Import ListNotations.

Set Warnings "-register-all".

Open Scope Z_scope.

(** ** The Op bitmask *)

Module OpBits.

(** [type Op uint32]. *)
Definition Op := Z.

Definition uint32_max : Z := 2 ^ 32.
Definition is_uint32 (z : Z) : Prop := 0 <= z < uint32_max.
Definition wrap32 (z : Z) : Op := z mod uint32_max.

(** [Create Op = 1 << iota]; the four specs that follow repeat the
    expression with iota = 1, 2, 3, 4. *)
Definition iota_op (iota : Z) : Op := wrap32 (Z.shiftl 1 iota).

Definition Create : Op := iota_op 0.
Definition Write  : Op := iota_op 1.
Definition Remove : Op := iota_op 2.
Definition Rename : Op := iota_op 3.
Definition Chmod  : Op := iota_op 4.

(** The remaining constants of the block, with the values written there. *)
Definition IN_ACCESS        : Op := 0x1.
Definition IN_ALL_EVENTS    : Op := 0xfff.
Definition IN_ATTRIB        : Op := 0x4.
Definition IN_CLASSA_HOST   : Op := 0xffffff.
Definition IN_CLASSA_MAX    : Op := 0x80.
Definition IN_CLASSA_NET    : Op := 0xff000000.
Definition IN_CLASSA_NSHIFT : Op := 0x18.
Definition IN_CLASSB_HOST   : Op := 0xffff.
Definition IN_CLASSB_MAX    : Op := 0x10000.
Definition IN_CLASSB_NET    : Op := 0xffff0000.
Definition IN_CLASSB_NSHIFT : Op := 0x10.
Definition IN_CLASSC_HOST   : Op := 0xff.
Definition IN_CLASSC_NET    : Op := 0xffffff00.
Definition IN_CLASSC_NSHIFT : Op := 0x8.
Definition IN_CLOSE         : Op := 0x18.
Definition IN_CLOSE_NOWRITE : Op := 0x10.
Definition IN_CLOSE_WRITE   : Op := 0x8.
Definition IN_CREATE        : Op := 0x100.
Definition IN_DELETE        : Op := 0x200.
Definition IN_DELETE_SELF   : Op := 0x400.
Definition IN_DONT_FOLLOW   : Op := 0x2000000.
Definition IN_EXCL_UNLINK   : Op := 0x4000000.
Definition IN_IGNORED       : Op := 0x8000.
Definition IN_ISDIR         : Op := 0x40000000.
Definition IN_LOOPBACKNET   : Op := 0x7f.
Definition IN_MASK_ADD      : Op := 0x20000000.
Definition IN_MASK_CREATE   : Op := 0x10000000.
Definition IN_MODIFY        : Op := 0x2.
Definition IN_MOVE          : Op := 0xc0.
Definition IN_MOVED_FROM    : Op := 0x40.
Definition IN_MOVED_TO      : Op := 0x80.
Definition IN_MOVE_SELF     : Op := 0x800.
Definition IN_ONESHOT       : Op := 0x80000000.
Definition IN_ONLYDIR       : Op := 0x1000000.
Definition IN_OPEN          : Op := 0x20.
Definition IN_Q_OVERFLOW    : Op := 0x4000.

(** [func (o Op) Has(h Op) bool { return o&h == h }] *)
Definition Has (o h : Op) : bool := Z.land o h =? h.

(** [type Event struct { Name string; Op Op }] *)
Record Event := mkEvent { Name : string; EvOp : Op }.

(** [func (e Event) Has(op Op) bool { return e.Op.Has(op) }] *)
Definition Event_Has (e : Event) (op : Op) : bool := Has (EvOp e) op.

(** The five canonical operations and the inotify event subflags. *)
Definition canonical_ops : list Op := [Create; Write; Remove; Rename; Chmod].

Definition inotify_subflags : list Op :=
  [IN_ACCESS; IN_MODIFY; IN_ATTRIB; IN_CLOSE_WRITE; IN_CLOSE_NOWRITE;
   IN_OPEN; IN_MOVED_FROM; IN_MOVED_TO; IN_CREATE; IN_DELETE;
   IN_DELETE_SELF; IN_MOVE_SELF; IN_Q_OVERFLOW; IN_IGNORED; IN_ISDIR].

(** [o] carries subflag bits only: every set bit lies in some subflag. *)
Definition only_subflag_bits (o : Op) : Prop :=
  Z.land o (fold_right Z.lor 0 inotify_subflags) = o.

End OpBits.

Import OpBits.

(** ** The stringifier *)

Module Stringer.

#[local] Open Scope string_scope.

(** [func (o Op) String() string]: a [strings.Builder] receives one
    ["|NAME"] per test that succeeds, in the order of the source.  The
    tests for the canonical operations are commented out in the source and
    so are absent here. *)
Definition WriteString (b s : string) : string := b ++ s.

Definition Op_String (o : Op) : string :=
  let b := EmptyString in
  let b := if Has o IN_ACCESS then WriteString b "|IN_ACCESS" else b in
  let b := if Has o IN_ATTRIB then WriteString b "|IN_ATTRIB" else b in
  let b := if Has o IN_CLOSE then WriteString b "|IN_CLOSE" else b in
  let b := if Has o IN_CLOSE_NOWRITE then WriteString b "|IN_CLOSE_NOWRITE" else b in
  let b := if Has o IN_CLOSE_WRITE then WriteString b "|IN_CLOSE_WRITE" else b in
  let b := if Has o IN_CREATE then WriteString b "|IN_CREATE" else b in
  let b := if Has o IN_DELETE then WriteString b "|IN_DELETE" else b in
  let b := if Has o IN_DELETE_SELF then WriteString b "|IN_DELETE_SELF" else b in
  let b := if Has o IN_MOVED_TO then WriteString b "|IN_MOVED_TO" else b in
  let b := if Has o IN_MODIFY then WriteString b "|IN_MODIFY" else b in
  let b := if Has o IN_MOVE_SELF then WriteString b "|IN_MOVE_SELF" else b in
  let b := if Has o IN_MOVED_FROM then WriteString b "|IN_MOVED_FROM" else b in
  let b := if Has o IN_ISDIR then WriteString b "|IN_ISDIR" else b in
  let b := if Has o IN_OPEN then WriteString b "|IN_OPEN" else b in
  let b := if Has o IN_DONT_FOLLOW then WriteString b "|IN_DONT_FOLLOW" else b in
  if Nat.eqb (String.length b) 0 then "[no events]"
  else match b with
       | EmptyString => EmptyString
       | String _ tl => tl          (* b.String()[1:] *)
       end.

(** The tests of [Op_String] as a table: mask and name, in source order. *)
Definition string_table : list (Op * string) :=
  [ (IN_ACCESS, "IN_ACCESS"); (IN_ATTRIB, "IN_ATTRIB"); (IN_CLOSE, "IN_CLOSE");
    (IN_CLOSE_NOWRITE, "IN_CLOSE_NOWRITE"); (IN_CLOSE_WRITE, "IN_CLOSE_WRITE");
    (IN_CREATE, "IN_CREATE"); (IN_DELETE, "IN_DELETE");
    (IN_DELETE_SELF, "IN_DELETE_SELF"); (IN_MOVED_TO, "IN_MOVED_TO");
    (IN_MODIFY, "IN_MODIFY"); (IN_MOVE_SELF, "IN_MOVE_SELF");
    (IN_MOVED_FROM, "IN_MOVED_FROM"); (IN_ISDIR, "IN_ISDIR");
    (IN_OPEN, "IN_OPEN"); (IN_DONT_FOLLOW, "IN_DONT_FOLLOW") ].

Definition subflag_names : list string := map snd string_table.

(** Union of the masks the stringifier inspects. *)
Definition inspected_mask : Op := fold_right Z.lor 0 (map fst string_table).

Definition canonical_names : list string :=
  ["CREATE"; "WRITE"; "REMOVE"; "RENAME"; "CHMOD"].

(** The names whose test succeeds on [o], in source order. *)
Definition names_of (o : Op) : list string :=
  map snd (filter (fun e => Has o (fst e)) string_table).

(** [strings.Join(names, sep)]. *)
Fixpoint join (sep : string) (names : list string) : string :=
  match names with
  | [] => EmptyString
  | [x] => x
  | x :: rest => x ++ sep ++ join sep rest
  end.

(** [strings.Split(s, "|")]: the fields between bars; [acc] holds the
    field being read. *)
Fixpoint split_bar_from (acc s : string) : list string :=
  match s with
  | EmptyString => [acc]
  | String c tl =>
      if Ascii.eqb c "|" then acc :: split_bar_from EmptyString tl
      else split_bar_from (acc ++ String c EmptyString) tl
  end.

Definition split_bar (s : string) : list string := split_bar_from EmptyString s.

Definition has_bar (s : string) : bool :=
  existsb (fun c => Ascii.eqb c "|") (list_ascii_of_string s).

(** One test of the stringifier, and the run of tests over a table. *)
Definition string_step (o : Op) (b : string) (e : Op * string) : string :=
  if Has o (fst e) then WriteString b ("|" ++ snd e) else b.

Definition barred (names : list string) : string :=
  fold_right (fun n acc => "|" ++ n ++ acc) EmptyString names.

Definition render (names : list string) : string :=
  match names with
  | [] => "[no events]"
  | _ => join "|" names
  end.

(** [func (e Event) String() string]:
    [fmt.Sprintf("%s %s ", e.Op, e.Name)]; the verb [%s] on an [Op] calls
    its [String] method. *)
Definition Event_String (e : Event) : string :=
  Op_String (EvOp e) ++ " " ++ Name e ++ " ".

(** Whether some byte of [s] is a space. *)
Definition has_space (s : string) : bool :=
  existsb (fun c => Ascii.eqb c " ") (list_ascii_of_string s).

(** The bit positions the stringifier looks at: every mask of the table
    is made of these. *)
Definition inspected_bits : list Z :=
  [0; 1; 2; 3; 4; 5; 6; 7; 8; 9; 10; 11; 25; 30].

End Stringer.

Import Stringer.

(** ** Sentinel errors *)

Module Errors.

(** An [error] made by [errors.New] is a pointer to a fresh [errorString]:
    its address and its text.  [==] on two such interface values compares
    the pointers. *)
Record error := mkError { err_addr : N; err_text : string }.

Definition error_eqb (a b : error) : bool := N.eqb (err_addr a) (err_addr b).

(** Allocation threads the next free address. *)
Definition alloc (A : Type) : Type := N -> A * N.

Definition errors_New (text : string) : alloc error :=
  fun next => (mkError next text, N.succ next).

(** The [var ( ... )] block of common errors, initialised in order. *)
Record sentinels := mkSentinels {
  ErrNonExistentWatch : error;
  ErrEventOverflow : error;
  ErrClosed : error
}.

Definition init_errors : alloc sentinels :=
  fun h0 =>
    let '(e1, h1) := errors_New "fsnotify: can't remove non-existent watcher" h0 in
    let '(e2, h2) := errors_New "fsnotify: queue or buffer overflow" h1 in
    let '(e3, h3) := errors_New "fsnotify: watcher already closed" h2 in
    (mkSentinels e1 e2 e3, h3).

(** The error values the package declares. *)
Definition exported_errors (s : sentinels) : list error :=
  [ErrNonExistentWatch s; ErrEventOverflow s; ErrClosed s].

End Errors.

Import Errors.

(** ** Options *)

Module Options.

(** [withOpts struct { bufsize int }]; an [addOpt] receives a pointer to
    the options and updates them in place, which is a function from the
    old value to the new. *)
Record withOpts := mkOpts { bufsize : Z }.

Definition addOpt : Type := withOpts -> withOpts.

Definition defaultOpts : withOpts := {| bufsize := 65536 |}.

(** [with := defaultOpts; for _, o := range opts { o(&with) }; return with] *)
Definition getOptions (opts : list addOpt) : withOpts :=
  fold_left (fun with_ o => o with_) opts defaultOpts.

(** [func(opt *withOpts) { opt.bufsize = bytes }] *)
Definition WithBufferSize (bytes : Z) : addOpt :=
  fun opt => {| bufsize := bytes |}.

End Options.

Import Options.

(** ** Paths: [filepath.Base], [filepath.Dir], [filepath.Clean] on Unix

    [recursivePath] is two calls into Go's [path/filepath].  The three
    functions are transcribed here for the Unix build, where the separator
    is ['/'] and the volume name is always empty.  Index loops that run
    from the end of the string work on the reversed byte list. *)

Module Path.

Definition bytes := list ascii.

Definition IsPathSeparator (c : ascii) : bool := Ascii.eqb c "/".
Definition is_dot (c : ascii) : bool := Ascii.eqb c ".".

Fixpoint drop_while (p : ascii -> bool) (l : bytes) : bytes :=
  match l with
  | [] => []
  | c :: tl => if p c then drop_while p tl else l
  end.

Fixpoint take_while (p : ascii -> bool) (l : bytes) : bytes :=
  match l with
  | [] => []
  | c :: tl => if p c then c :: take_while p tl else []
  end.

(** [for len(path) > 0 && IsPathSeparator(path[len(path)-1])
       { path = path[0 : len(path)-1] }] *)
Definition strip_trailing_separators (path : bytes) : bytes :=
  rev (drop_while IsPathSeparator (rev path)).

(** [i := len(path)-1; for i >= 0 && !IsPathSeparator(path[i]) { i-- }]
    followed by [path[i+1:]], which is the whole path when [i] ends at -1. *)
Definition after_last_separator (path : bytes) : bytes :=
  rev (take_while (fun c => negb (IsPathSeparator c)) (rev path)).

(** The same loop followed by [path[:i+1]]. *)
Definition upto_last_separator (path : bytes) : bytes :=
  rev (drop_while (fun c => negb (IsPathSeparator c)) (rev path)).

(** [filepath.Base]. *)
Definition Base_bytes (path : bytes) : bytes :=
  match path with
  | [] => ["."%char]
  | _ =>
      let path := strip_trailing_separators path in
      let path := after_last_separator path in
      match path with
      | [] => ["/"%char]
      | _ => path
      end
  end.

(** The output buffer of [Clean]: the bytes written so far, last byte
    first, so that [out.w] is the length; [dotdot] is the index where a
    [..] element must stop backtracking. *)
Record lazybuf := mkBuf { out : bytes; dotdot : nat }.

Definition buf_append (c : ascii) (b : lazybuf) : lazybuf :=
  mkBuf (c :: out b) (dotdot b).

(** [for out.w > dotdot && !IsPathSeparator(out.index(out.w)) { out.w-- }]
    where [last] is the byte at index [out.w], the one just given up. *)
Fixpoint backtrack_from (dd : nat) (last : ascii) (o : bytes) : bytes :=
  match o with
  | [] => []
  | c :: tl =>
      if Nat.ltb dd (List.length o) && negb (IsPathSeparator last)
      then backtrack_from dd c tl
      else o
  end.

(** [out.w--] and the loop above. *)
Definition backtrack (b : lazybuf) : lazybuf :=
  match out b with
  | [] => b
  | c :: tl => mkBuf (backtrack_from (dotdot b) c tl) (dotdot b)
  end.

(** The [..] case of [Clean]. *)
Definition dotdot_element (rooted : bool) (b : lazybuf) : lazybuf :=
  if Nat.ltb (dotdot b) (List.length (out b)) then backtrack b
  else if negb rooted then
    let b := if Nat.ltb 0 (List.length (out b)) then buf_append "/" b else b in
    let b := buf_append "." (buf_append "." b) in
    mkBuf (out b) (List.length (out b))
  else b.

(** The separator written before a real path element. *)
Definition add_slash (rooted : bool) (b : lazybuf) : lazybuf :=
  let w := List.length (out b) in
  if (rooted && negb (Nat.eqb w 1)) || (negb rooted && negb (Nat.eqb w 0))
  then buf_append "/" b else b.

Definition at_end_or_separator (l : bytes) : bool :=
  match l with
  | [] => true
  | c :: _ => IsPathSeparator c
  end.

(** The main loop of [Clean], [for r < n { switch ... }], on the bytes
    from index [r] on.  The inner fixpoint is the element copy of the
    default case; it hands the rest, starting at the separator it stopped
    on, back to the outer loop. *)
Fixpoint clean_loop (rooted : bool) (path : bytes) (b : lazybuf) : lazybuf :=
  match path with
  | [] => b
  | c :: tl =>
      if IsPathSeparator c then clean_loop rooted tl b
      else if is_dot c && at_end_or_separator tl then clean_loop rooted tl b
      else
        let copy :=
          (fix copy (l : bytes) (b : lazybuf) {struct l} : lazybuf :=
             match l with
             | [] => b
             | d :: l' =>
                 if IsPathSeparator d then clean_loop rooted l b
                 else copy l' (buf_append d b)
             end) in
        match tl with
        | d :: tl' =>
            if is_dot c && is_dot d && at_end_or_separator tl'
            then clean_loop rooted tl' (dotdot_element rooted b)
            else copy tl (buf_append c (add_slash rooted b))
        | [] => copy tl (buf_append c (add_slash rooted b))
        end
  end.

(** The element copy of the default case as a function of its own. *)
Fixpoint copy_element (rooted : bool) (l : bytes) (b : lazybuf) : lazybuf :=
  match l with
  | [] => b
  | d :: l' =>
      if IsPathSeparator d then clean_loop rooted l b
      else copy_element rooted l' (buf_append d b)
  end.

(** [filepath.Clean]. *)
Definition Clean_bytes (path : bytes) : bytes :=
  match path with
  | [] => ["."%char]
  | c :: tl =>
      let rooted := IsPathSeparator c in
      let b := if rooted then mkBuf ["/"%char] 1 else mkBuf [] 0 in
      let b := clean_loop rooted (if rooted then tl else path) b in
      let b := if Nat.eqb (List.length (out b)) 0 then buf_append "." b else b in
      rev (out b)
  end.

(** [filepath.Dir]: [Clean(path[:i+1])] with [i] the index of the last
    separator. *)
Definition Dir_bytes (path : bytes) : bytes :=
  Clean_bytes (upto_last_separator path).

Definition Base (path : string) : string :=
  string_of_list_ascii (Base_bytes (list_ascii_of_string path)).
Definition Clean (path : string) : string :=
  string_of_list_ascii (Clean_bytes (list_ascii_of_string path)).
Definition Dir (path : string) : string :=
  string_of_list_ascii (Dir_bytes (list_ascii_of_string path)).

(** [filepath.Join] of two elements: empty elements are ignored and the
    result is cleaned. *)
Definition Join (dir name : string) : string :=
  match dir, name with
  | EmptyString, EmptyString => EmptyString
  | EmptyString, _ => Clean name
  | _, EmptyString => Clean dir
  | _, _ => Clean (dir ++ "/" ++ name)
  end.

(** [func recursivePath(path string) (string, bool)] *)
Definition recursivePath (path : string) : string * bool :=
  if String.eqb (Base path) "..." then (Dir path, true)
  else (path, false).

(** The bytes [/.../]: the recursion suffix followed by a separator. *)
Definition dots_tail : bytes :=
  ["/"%char; "."%char; "."%char; "."%char; "/"%char].

(** On a rooted path the buffer of [Clean] starts with the separator,
    which is where backtracking stops. *)
Definition rooted_buffer (rooted : bool) (b : lazybuf) : Prop :=
  rooted = true ->
  dotdot b = 1%nat /\ exists pre, out b = (pre ++ ["/"%char])%list.

(** The buffer, last byte first, ends in the element [...]. *)
Definition ends_in_dots (o : bytes) : Prop :=
  exists rest,
    o = "."%char :: "."%char :: "."%char :: rest /\
    (rest = [] \/ exists r, rest = "/"%char :: r).

(** A single path element: not empty and free of separators. *)
Definition no_separator (c : bytes) : bool :=
  forallb (fun a => negb (IsPathSeparator a)) c.

Definition is_element (c : string) : Prop :=
  c <> EmptyString /\ no_separator (list_ascii_of_string c) = true.

(** [k] separators in a row. *)
Definition separators (k : nat) : bytes := repeat "/"%char k.

(** The element [...] as bytes. *)
Definition dots : bytes := ["."%char; "."%char; "."%char].

Definition separators_string (k : nat) : string :=
  string_of_list_ascii (separators k).

End Path.

Import Path.

(** ** Walking directory trees: [utils.go]

    [GetDirNames] drives [filepath.Walk] with the callback [visit].  The
    file system is what [os.Lstat] and [readDirNames] answer: a tree whose
    directories list their entries in the lexical order [readDirNames]
    returns them, and in which a name may fail to stat and a directory may
    fail to list. *)

Module Walk.

Inductive fsnode : Type :=
| Regular                                   (* info.IsDir() is false *)
| Unreadable (e : error)                     (* a directory that cannot be read *)
| Directory (entries : list (string * (error + fsnode))).

(** What [Lstat] answers for a name: an error or the node there. *)
Definition stat : Type := (error + fsnode)%type.

Record FileInfo := mkInfo { IsDir : bool }.

Definition info_of (n : fsnode) : FileInfo :=
  match n with
  | Regular => mkInfo false
  | Unreadable _ | Directory _ => mkInfo true
  end.

(** A computation over the slice [files] that either returns or ends the
    process ([log.Fatal] prints and calls [os.Exit(1)]). *)
Inductive outcome (A : Type) : Type :=
| Ret (a : A) (files : list string)
| Exit (e : error).
Arguments Ret {A} a files.
Arguments Exit {A} e.

Definition M (A : Type) : Type := list string -> outcome A.

Definition ret {A} (a : A) : M A := fun files => Ret a files.

Definition bind {A B} (m : M A) (k : A -> M B) : M B :=
  fun files =>
    match m files with
    | Ret a files' => k a files'
    | Exit e => Exit e
    end.

Notation "x <- m ;; k" := (bind m (fun x => k))
  (at level 61, m at next level, right associativity).

Definition log_Fatal {A} (e : error) : M A := fun _ => Exit e.

Definition append_file (path : string) : M unit :=
  fun files => Ret tt (files ++ [path]).

(** [filepath.WalkFunc]: path, info (nil when the stat failed), error. *)
Definition WalkFunc : Type :=
  string -> option FileInfo -> option error -> M (option error).

(** [func visit(files *[]string) filepath.WalkFunc] *)
Definition visit : WalkFunc :=
  fun path info err =>
    match err with
    | Some e => log_Fatal e
    | None => _ <- append_file path ;; ret None
    end.

Section FilepathWalk.

(** [filepath.SkipDir], and the answers of [os.Lstat] for the roots. *)
Variable SkipDir : error.
Variable lstat_root : string -> stat.

Definition is_SkipDir (e : error) : bool := error_eqb e SkipDir.

(** [filepath.walk]: the recursive descent below a node that has been
    stat'ed. *)
Fixpoint walk (walkFn : WalkFunc) (path : string) (node : fsnode)
  : M (option error) :=
  match node with
  | Regular => walkFn path (Some (info_of node)) None
  | Unreadable e => walkFn path (Some (info_of node)) (Some e)
  | Directory entries =>
      err1 <- walkFn path (Some (info_of node)) None ;;
      match err1 with
      | Some e => ret (Some e)
      | None =>
          (fix range (names : list (string * stat)) : M (option error) :=
             match names with
             | [] => ret None
             | (name, st) :: rest =>
                 let filename := Join path name in
                 match st with
                 | inl err =>
                     r <- walkFn filename None (Some err) ;;
                     match r with
                     | Some e =>
                         if negb (is_SkipDir e) then ret (Some e)
                         else range rest
                     | None => range rest
                     end
                 | inr child =>
                     r <- walk walkFn filename child ;;
                     match r with
                     | Some e =>
                         if negb (IsDir (info_of child)) || negb (is_SkipDir e)
                         then ret (Some e)
                         else range rest
                     | None => range rest
                     end
                 end
             end) entries
      end
  end.

(** [filepath.Walk]. *)
Definition Walk (root : string) (fn : WalkFunc) : M (option error) :=
  err <- match lstat_root root with
         | inl err => fn root None (Some err)
         | inr info => walk fn root info
         end ;;
  match err with
  | Some e => if is_SkipDir e then ret None else ret (Some e)
  | None => ret None
  end.

(** The loop of [GetDirNames] over the roots. *)
Fixpoint range_names (names : list string) : M (list string * option error) :=
  match names with
  | [] => fun files => Ret (files, None) files
  | v :: rest =>
      err <- Walk v visit ;;
      match err with
      | Some e => ret ([], Some e)
      | None => range_names rest
      end
  end.

(** [func GetDirNames(names []string) ([]string, error)] *)
Definition GetDirNames (names : list string)
  : outcome (list string * option error) :=
  range_names names [].

(** *** What the tree contains *)

(** The first failure a pre-order traversal meets at or below a node: a
    name that does not stat or a directory that does not list. *)
Fixpoint tree_failure (node : fsnode) : option error :=
  match node with
  | Regular => None
  | Unreadable e => Some e
  | Directory entries =>
      (fix first (es : list (string * stat)) : option error :=
         match es with
         | [] => None
         | (_, inl e) :: _ => Some e
         | (_, inr child) :: rest =>
             match tree_failure child with
             | Some e => Some e
             | None => first rest
             end
         end) entries
  end.

Definition root_failure (root : string) : option error :=
  match lstat_root root with
  | inl e => Some e
  | inr node => tree_failure node
  end.

(** The first failure among the roots, in the order given. *)
Fixpoint roots_failure (names : list string) : option error :=
  match names with
  | [] => None
  | v :: rest =>
      match root_failure v with
      | Some e => Some e
      | None => roots_failure rest
      end
  end.

(** Every path at and below a node, in pre-order, each with whether it
    is a directory. *)
Fixpoint tree_entries (path : string) (node : fsnode) : list (string * bool) :=
  match node with
  | Regular => [(path, false)]
  | Unreadable _ => [(path, true)]
  | Directory entries =>
      (path, true) ::
      (fix below (es : list (string * stat)) : list (string * bool) :=
         match es with
         | [] => []
         | (_, inl _) :: rest => below rest
         | (name, inr child) :: rest =>
             tree_entries (Join path name) child ++ below rest
         end) entries
  end.

(** The directories at and below a node, in pre-order. *)
Fixpoint tree_dirs (path : string) (node : fsnode) : list string :=
  match node with
  | Regular => []
  | Unreadable _ => [path]
  | Directory entries =>
      path ::
      (fix below (es : list (string * stat)) : list string :=
         match es with
         | [] => []
         | (_, inl _) :: rest => below rest
         | (name, inr child) :: rest =>
             tree_dirs (Join path name) child ++ below rest
         end) entries
  end.

Definition root_entries (root : string) : list (string * bool) :=
  match lstat_root root with
  | inl _ => []
  | inr node => tree_entries root node
  end.

Definition root_dirs (root : string) : list string :=
  match lstat_root root with
  | inl _ => []
  | inr node => tree_dirs root node
  end.

(** Every path at and below a node, in pre-order, each with the node
    found there. *)
Fixpoint tree_nodes (path : string) (node : fsnode) : list (string * fsnode) :=
  match node with
  | Regular | Unreadable _ => [(path, node)]
  | Directory entries =>
      (path, node) ::
      (fix below (es : list (string * stat)) : list (string * fsnode) :=
         match es with
         | [] => []
         | (_, inl _) :: rest => below rest
         | (name, inr child) :: rest =>
             tree_nodes (Join path name) child ++ below rest
         end) entries
  end.

Definition root_nodes (root : string) : list (string * fsnode) :=
  match lstat_root root with
  | inl _ => []
  | inr node => tree_nodes root node
  end.

(** The paths of a list of entries that are directories. *)
Definition directories_of (ents : list (string * bool)) : list string :=
  map fst (filter snd ents).

End FilepathWalk.

(** A small tree: directory [d] holds the regular file [f] and the
    directory [s], which holds the regular file [g]. *)
Definition sample_tree : fsnode :=
  Directory [("f"%string, inr Regular); ("s"%string, inr (Directory [("g"%string, inr Regular)]))].

Definition ENOENT : error := mkError 7 "lstat missing: no such file or directory".

Definition sample_lstat (root : string) : stat :=
  if String.eqb root "d" then inr sample_tree else inl ENOENT.

Definition sample_SkipDir : error := mkError 0 "skip this directory".

End Walk.

Import Walk.

(** ** The command's receive loop: [cmd/fsnotify/watch.go]

    [watchLoop] selects on the watcher's two channels until one of them is
    closed.  Which channel is ready is the scheduler's choice; the loop is
    run here on the sequence of receptions that choice produced.  What the
    loop does to the outside is a list of actions: a line handed to
    [log.Printf] and a call of [w.Add]. *)

Module WatchCmd.

#[local] Open Scope string_scope.

(** One reception: [err, ok := <-w.Errors] or [e, ok := <-w.Events];
    [None] is [ok == false], the channel was closed. *)
Inductive reception : Type :=
| FromErrors (err : option error)
| FromEvents (e : option Event).

Inductive action : Type :=
| Printf (line : string)
| Add (name : string).

(** The test in front of [w.Add(e.Name)]. *)
Definition is_new_directory (e : Event) : bool :=
  String.eqb (Op_String (EvOp e)) "IN_CREATE|IN_ISDIR".

(** The body of the [case e, ok := <-w.Events] arm for an open channel. *)
Definition on_event (e : Event) : list action :=
  (if is_new_directory e then [Add (Name e)] else []) ++
  [Printf ("Op:" ++ Op_String (EvOp e) ++ " Name: " ++ Name e)].

(** [func watchLoop(w *fsnotify.Watcher)]: the loop returns at the first
    closed channel and waits when nothing more arrives. *)
Fixpoint watchLoop (rs : list reception) : list action :=
  match rs with
  | [] => []
  | FromErrors None :: _ => []
  | FromErrors (Some err) :: rest =>
      Printf ("ERROR: " ++ err_text err) :: watchLoop rest
  | FromEvents None :: _ => []
  | FromEvents (Some e) :: rest => on_event e ++ watchLoop rest
  end.

(** The receptions the loop gets to see: those before the first closed
    channel. *)
Fixpoint before_close (rs : list reception) : list reception :=
  match rs with
  | [] => []
  | FromErrors None :: _ | FromEvents None :: _ => []
  | r :: rest => r :: before_close rest
  end.

Definition events_of (rs : list reception) : list Event :=
  flat_map (fun r => match r with FromEvents (Some e) => [e] | _ => [] end) rs.

Definition added (acts : list action) : list string :=
  flat_map (fun a => match a with Add name => [name] | Printf _ => [] end) acts.

Definition printed (acts : list action) : list string :=
  flat_map (fun a => match a with Printf line => [line] | Add _ => [] end) acts.

End WatchCmd.

Import WatchCmd.

(** ** Has as set containment *)

Section HasContainment.

Lemma land_eq_iff_bits (o h : Z) :
  Z.land o h = h <->
  (forall i, Z.testbit h i = true -> Z.testbit o i = true).
Proof.
  split.
  - intros E i Hi. rewrite <- E in Hi.
    rewrite Z.land_spec in Hi. now apply andb_true_iff in Hi.
  - intros Hsub. apply Z.bits_inj'. intros i _.
    rewrite Z.land_spec.
    destruct (Z.testbit h i) eqn:Hh.
    + now rewrite (Hsub i Hh).
    + apply andb_false_r.
Qed.

Lemma Has_true_iff (o h : Op) :
  Has o h = true <->
  (forall i, Z.testbit h i = true -> Z.testbit o i = true).
Proof.
  unfold Has. rewrite Z.eqb_eq. apply land_eq_iff_bits.
Qed.

Lemma Has_lor (o a b : Op) :
  Has o (Z.lor a b) = Has o a && Has o b.
Proof.
  apply eq_true_iff_eq. rewrite andb_true_iff, !Has_true_iff.
  split.
  - intros H; split; intros i Hi; apply H; rewrite Z.lor_spec, Hi;
      [reflexivity | apply orb_true_r].
  - intros [Ha Hb] i Hi. rewrite Z.lor_spec in Hi.
    apply orb_true_iff in Hi. destruct Hi; auto.
Qed.

End HasContainment.

(** C6. [Op.Has] is containment of bit sets: [o.Has(h)] holds exactly when
    every bit of [h] is a bit of [o]; hence [o.Has(a|b)] holds exactly when
    [o.Has(a)] and [o.Has(b)] do; and [Event.Has] is [Op.Has] on the event's
    operation. *)
Theorem C6_Has_is_containment :
  (forall o h : Op,
      Has o h = true <->
      (forall i, Z.testbit h i = true -> Z.testbit o i = true)) /\
  (forall o a b : Op,
      Has o (Z.lor a b) = true <-> Has o a = true /\ Has o b = true) /\
  (forall (e : Event) (op : Op), Event_Has e op = Has (EvOp e) op).
Proof.
  split; [exact Has_true_iff|]. split.
  - intros o a b. rewrite Has_lor. apply andb_true_iff.
  - reflexivity.
Qed.

(** C8. The zero operation is contained in every [Op], so every event, also
    one whose bitmask is empty, has it. *)
Theorem C8_Has_zero :
  (forall o : Op, Has o 0 = true) /\
  (forall e : Event, Event_Has e 0 = true) /\
  Event_Has (mkEvent EmptyString 0) 0 = true.
Proof.
  assert (H : forall o : Op, Has o 0 = true).
  { intros o. unfold Has. now rewrite Z.land_0_r. }
  repeat split; intros; apply H.
Qed.

(** ** Canonical operations against the inotify subflags *)

(** C2. The canonical operations sit on the bits 0 to 4, and those are the
    bits of IN_ACCESS, IN_MODIFY, IN_ATTRIB, IN_CLOSE_WRITE and
    IN_CLOSE_NOWRITE: the positions are not disjoint.  An [Op] that carries
    the single subflag IN_ACCESS has [Create]; every canonical operation is
    had by some [Op] made of subflag bits only.  [Create] and [IN_CREATE]
    are different bits and neither test implies the other. *)
Theorem C2_canonical_ops_alias_subflags :
  Create = IN_ACCESS /\ Write = IN_MODIFY /\ Remove = IN_ATTRIB /\
  Rename = IN_CLOSE_WRITE /\ Chmod = IN_CLOSE_NOWRITE /\
  is_uint32 IN_ACCESS /\ only_subflag_bits IN_ACCESS /\
  Has IN_ACCESS Create = true /\
  (forall c, In c canonical_ops ->
             exists o, In o inotify_subflags /\ only_subflag_bits o /\ Has o c = true) /\
  Has Create IN_CREATE = false /\ Has IN_CREATE Create = false.
Proof.
  assert (U : is_uint32 IN_ACCESS) by (unfold is_uint32; vm_compute; split; congruence).
  do 5 (split; [reflexivity|]).
  split; [exact U|]. split; [reflexivity|]. split; [reflexivity|].
  split; [|split; reflexivity].
  intros c Hc. simpl in Hc.
  destruct Hc as [<-|[<-|[<-|[<-|[<-|[]]]]]].
  - exists IN_ACCESS. split; [simpl; auto|split; reflexivity].
  - exists IN_MODIFY. split; [simpl; auto|split; reflexivity].
  - exists IN_ATTRIB. split; [simpl; auto|split; reflexivity].
  - exists IN_CLOSE_WRITE. split; [simpl; auto|split; reflexivity].
  - exists IN_CLOSE_NOWRITE. split; [simpl; auto 6|split; reflexivity].
Qed.

(** ** Sentinel errors *)

Lemma errors_New_fresh (text : string) (h : N) :
  err_addr (fst (errors_New text h)) = h /\ snd (errors_New text h) = N.succ h.
Proof. split; reflexivity. Qed.

(** C4. The package declares three error values, and whatever the state of
    the allocator when the package is initialised, no two of them are
    equal: [==] tells them apart, and so do their texts. *)
Theorem C4_sentinels_distinct (h0 : N) :
  let s := fst (init_errors h0) in
  List.length (exported_errors s) = 3%nat /\
  NoDup (exported_errors s) /\
  error_eqb (ErrNonExistentWatch s) (ErrEventOverflow s) = false /\
  error_eqb (ErrNonExistentWatch s) (ErrClosed s) = false /\
  error_eqb (ErrEventOverflow s) (ErrClosed s) = false /\
  NoDup (map err_text (exported_errors s)).
Proof.
  cbn. unfold error_eqb; cbn.
  assert (A1 : h0 <> N.succ h0) by lia.
  assert (A2 : h0 <> N.succ (N.succ h0)) by lia.
  assert (A3 : N.succ h0 <> N.succ (N.succ h0)) by lia.
  split; [reflexivity|]. split.
  - repeat constructor; simpl; intuition congruence.
  - rewrite !N.eqb_neq. repeat split; auto.
    repeat constructor; simpl; intuition discriminate.
Qed.

(** ** Options *)

Lemma getOptions_snoc (opts : list addOpt) (o : addOpt) :
  getOptions (opts ++ [o]) = o (getOptions opts).
Proof. unfold getOptions. now rewrite fold_left_app. Qed.

Lemma last_cons_default {A} (x : A) (l : list A) (d d' : A) :
  last (x :: l) d = last (x :: l) d'.
Proof.
  revert x. induction l as [|y l IH]; intros x; [reflexivity|].
  change (last (y :: l) d = last (y :: l) d'). apply IH.
Qed.

Lemma fold_WithBufferSize (ns : list Z) (w : withOpts) :
  bufsize (fold_left (fun with_ (o : addOpt) => o with_) (map WithBufferSize ns) w)
  = last ns (bufsize w).
Proof.
  revert w. induction ns as [|n ns IH]; intros w; [reflexivity|].
  simpl map. simpl fold_left. rewrite IH.
  destruct ns as [|z ns]; [reflexivity|].
  change (last (n :: z :: ns) (bufsize w)) with (last (z :: ns) (bufsize w)).
  apply last_cons_default.
Qed.

(** C5. Without options the buffer size is 65536; when the last option of
    the list is [WithBufferSize n] the buffer size is [n], whatever came
    before it; and of several [WithBufferSize] options the last wins. *)
Theorem C5_getOptions_bufsize :
  bufsize (getOptions []) = 65536 /\
  (forall (before : list addOpt) (n : Z),
      bufsize (getOptions (before ++ [WithBufferSize n])) = n) /\
  (forall ns : list Z,
      bufsize (getOptions (map WithBufferSize ns)) = last ns 65536).
Proof.
  split; [reflexivity|]. split.
  - intros before n. now rewrite getOptions_snoc.
  - intros ns. apply fold_WithBufferSize.
Qed.

(** ** The stringifier *)

Section StringFacts.

#[local] Open Scope string_scope.

Lemma sapp_nil_r (s : string) : s ++ EmptyString = s.
Proof. induction s as [|c s IH]; simpl; [reflexivity | now rewrite IH]. Qed.

Lemma sapp_assoc (a b c : string) : (a ++ b) ++ c = a ++ (b ++ c).
Proof. induction a as [|x a IH]; simpl; [reflexivity | now rewrite IH]. Qed.

End StringFacts.

Section OpString.

#[local] Open Scope string_scope.

Lemma Op_String_fold (o : Op) :
  Op_String o =
  let b := fold_left (string_step o) string_table EmptyString in
  if Nat.eqb (String.length b) 0 then "[no events]"
  else match b with EmptyString => EmptyString | String _ tl => tl end.
Proof. reflexivity. Qed.

Lemma fold_string_step (o : Op) (table : list (Op * string)) (b : string) :
  fold_left (string_step o) table b =
  b ++ barred (map snd (filter (fun e => Has o (fst e)) table)).
Proof.
  revert b. induction table as [|[h n] table IH]; intros b; simpl.
  - now rewrite sapp_nil_r.
  - rewrite IH. unfold string_step, WriteString. simpl fst; simpl snd.
    destruct (Has o h); [|reflexivity].
    simpl map. simpl barred. now rewrite sapp_assoc.
Qed.

Lemma barred_cons (n : string) (rest : list string) :
  barred (n :: rest) = String "|" (join "|" (n :: rest)).
Proof.
  revert n. induction rest as [|m rest IH]; intros n.
  - simpl. now rewrite sapp_nil_r.
  - change (barred (n :: m :: rest)) with ("|" ++ n ++ barred (m :: rest)).
    rewrite IH. reflexivity.
Qed.

(** The stringifier returns the names whose test succeeds, joined by
    bars, or the placeholder when there is none. *)
Lemma Op_String_render (o : Op) : Op_String o = render (names_of o).
Proof.
  rewrite Op_String_fold. cbv zeta. rewrite fold_string_step.
  fold (names_of o). simpl append.
  destruct (names_of o) as [|n rest]; [reflexivity|].
  rewrite barred_cons. reflexivity.
Qed.

Lemma names_of_subflags (o : Op) : incl (names_of o) subflag_names.
Proof.
  unfold names_of, subflag_names. intros n Hn.
  apply in_map_iff in Hn. destruct Hn as [e [<- He]].
  apply filter_In in He. apply in_map. tauto.
Qed.

(** Splitting what [join] made gives the names back. *)
Lemma has_bar_cons (c : ascii) (s : string) :
  has_bar (String c s) = Ascii.eqb c "|" || has_bar s.
Proof. reflexivity. Qed.

Lemma split_bar_from_app (n acc s : string) :
  has_bar n = false ->
  split_bar_from acc (n ++ s) = split_bar_from (acc ++ n) s.
Proof.
  revert acc. induction n as [|c n IH]; intros acc Hn; simpl.
  - now rewrite sapp_nil_r.
  - rewrite has_bar_cons in Hn. apply orb_false_iff in Hn.
    destruct Hn as [Hc Hn]. rewrite Hc, IH by exact Hn.
    now rewrite sapp_assoc.
Qed.

Lemma split_bar_from_join (names : list string) (n acc : string) :
  Forall (fun x => has_bar x = false) (n :: names) ->
  split_bar_from acc (join "|" (n :: names)) = (acc ++ n) :: names.
Proof.
  revert n acc. induction names as [|m names IH]; intros n acc Hall.
  - simpl. rewrite <- (sapp_nil_r n) at 1.
    rewrite split_bar_from_app by (now inversion Hall). reflexivity.
  - change (join "|" (n :: m :: names))
      with (n ++ String "|" (join "|" (m :: names))).
    inversion Hall as [|? ? Hn Hrest]; subst.
    rewrite split_bar_from_app by exact Hn.
    change (split_bar_from (acc ++ n) (String "|" (join "|" (m :: names))))
      with ((acc ++ n) :: split_bar_from EmptyString (join "|" (m :: names))).
    rewrite IH by exact Hrest. reflexivity.
Qed.

Lemma split_bar_join (names : list string) :
  names <> [] ->
  Forall (fun x => has_bar x = false) names ->
  split_bar (join "|" names) = names.
Proof.
  destruct names as [|n names]; [congruence|]. intros _ Hall.
  unfold split_bar. now rewrite split_bar_from_join.
Qed.

Lemma subflag_names_no_bar :
  Forall (fun x => has_bar x = false) subflag_names.
Proof. repeat constructor. Qed.

Lemma subflag_names_not_canonical (t : string) :
  In t subflag_names -> ~ In t canonical_names.
Proof.
  intros Hs Hc.
  assert (D : forallb (fun s => negb (existsb (String.eqb s) canonical_names))
                      subflag_names = true) by reflexivity.
  rewrite forallb_forall in D. specialize (D t Hs).
  apply negb_true_iff in D.
  assert (E : existsb (String.eqb t) canonical_names = true).
  { apply existsb_exists. exists t. split; [exact Hc | apply String.eqb_refl]. }
  congruence.
Qed.

(** A mask that is inspected and not empty cannot be had by an [Op]
    that shares no bit with the inspected masks. *)
Lemma Has_outside_mask (o h mask : Op) :
  Z.land o mask = 0 -> Z.land h mask = h -> h <> 0 -> Has o h = false.
Proof.
  intros Ho Hh Hnz. unfold Has. apply Z.eqb_neq. intros E.
  apply Hnz. rewrite <- E, <- Hh.
  rewrite Z.land_assoc, (Z.land_comm o h), <- Z.land_assoc, Ho.
  apply Z.land_0_r.
Qed.

Lemma names_of_outside_mask (o : Op) :
  Z.land o inspected_mask = 0 -> names_of o = [].
Proof.
  intros Ho. unfold names_of.
  assert (T : Forall (fun e : Op * string =>
                        Z.land (fst e) inspected_mask = fst e /\ fst e <> 0)
                     string_table).
  { repeat constructor; simpl; discriminate. }
  induction string_table as [|e table IH]; [reflexivity|].
  inversion T as [|? ? [Hm Hnz] Hrest]; subst. simpl.
  rewrite (Has_outside_mask o (fst e) inspected_mask Ho Hm Hnz).
  now apply IH.
Qed.

End OpString.

(** C7, as stated, at the empty bitmask: the string returned for [Op(0)]
    is not a bar-joined list of kernel subflag names. *)
Lemma C7_no_events_is_not_a_subflag_list :
  ~ exists names : list string,
      Forall (fun n => In n subflag_names) names /\
      Op_String 0 = join "|" names.
Proof.
  intros [names [Hall E]].
  change (Op_String 0) with "[no events]"%string in E.
  destruct names as [|n rest]; [discriminate E|].
  inversion Hall as [|? ? Hn _]; subst.
  assert (S : exists tl, n = String "I" tl).
  { simpl in Hn.
    repeat (destruct Hn as [<-|Hn]; [eexists; reflexivity|]).
    destruct Hn. }
  destruct S as [tl ->].
  destruct rest; simpl in E; discriminate E.
Qed.

(** C7, amended. For every [Op] the stringifier returns the placeholder
    ["[no events]"] when no inspected subflag test succeeds, and otherwise
    the names of the kernel subflags whose test succeeds, in source order,
    joined by ["|"]; those names are all kernel subflag names, and no
    bar-separated field of the result is CREATE, WRITE, REMOVE, RENAME or
    CHMOD. *)
Theorem C7_Op_String_subflag_names_only (o : Op) :
  ((names_of o = [] /\ Op_String o = "[no events]"%string) \/
   (names_of o <> [] /\ Op_String o = join "|" (names_of o))) /\
  incl (names_of o) subflag_names /\
  (forall t, In t (split_bar (Op_String o)) -> ~ In t canonical_names).
Proof.
  pose proof (names_of_subflags o) as Hincl.
  rewrite Op_String_render.
  split; [|split; [exact Hincl|]].
  - destruct (names_of o) as [|n rest]; [left; now split | right].
    split; [discriminate | reflexivity].
  - destruct (names_of o) as [|n rest] eqn:En.
    + simpl. intros t [<-|[]] Hc. simpl in Hc.
      repeat (destruct Hc as [Hc|Hc]; [discriminate Hc|]). exact Hc.
    + unfold render. rewrite split_bar_join.
      * intros t Ht. apply subflag_names_not_canonical. now apply Hincl.
      * discriminate.
      * apply Forall_forall. intros x Hx.
        pose proof subflag_names_no_bar as NB.
        rewrite Forall_forall in NB. apply NB. now apply Hincl.
Qed.

(** C9. An [Op] that shares no bit with the masks the stringifier inspects
    is rendered as ["[no events]"]. *)
Theorem C9_Op_String_no_events (o : Op) :
  Z.land o inspected_mask = 0 -> Op_String o = "[no events]"%string.
Proof.
  intros Ho. rewrite Op_String_render, (names_of_outside_mask o Ho).
  reflexivity.
Qed.

(** C9 at the zero [Op], at IN_Q_OVERFLOW alone and at IN_IGNORED alone. *)
Lemma C9_Op_String_no_events_witness :
  (Z.land 0 inspected_mask = 0 /\
   Z.land IN_Q_OVERFLOW inspected_mask = 0 /\
   Z.land IN_IGNORED inspected_mask = 0) /\
  Op_String 0 = "[no events]"%string /\
  Op_String IN_Q_OVERFLOW = "[no events]"%string /\
  Op_String IN_IGNORED = "[no events]"%string.
Proof.
  split; [repeat split|].
  split; [|split].
  - apply (C9_Op_String_no_events 0). reflexivity.
  - apply (C9_Op_String_no_events IN_Q_OVERFLOW). reflexivity.
  - apply (C9_Op_String_no_events IN_IGNORED). reflexivity.
Defined.

(** ** The recursion suffix *)

Section PathBytes.

Lemma list_ascii_of_string_app (a b : string) :
  list_ascii_of_string (a ++ b) =
  (list_ascii_of_string a ++ list_ascii_of_string b)%list.
Proof. induction a as [|c a IH]; simpl; [reflexivity | now rewrite IH]. Qed.

Lemma drop_while_head (p : ascii -> bool) (x : ascii) (l : bytes) :
  p x = false -> drop_while p (x :: l) = x :: l.
Proof. intros H. simpl. now rewrite H. Qed.

Lemma take_while_app (p : ascii -> bool) (l1 : bytes) (x : ascii) (l2 : bytes) :
  forallb p l1 = true -> p x = false ->
  take_while p (l1 ++ x :: l2) = l1.
Proof.
  intros H1 Hx. induction l1 as [|c l1 IH]; simpl in *.
  - now rewrite Hx.
  - apply andb_true_iff in H1. destruct H1 as [Hc H1].
    now rewrite Hc, IH.
Qed.

Lemma take_while_all (p : ascii -> bool) (l : bytes) :
  forallb p l = true -> take_while p l = l.
Proof.
  induction l as [|c l IH]; simpl; [reflexivity|].
  intros H. apply andb_true_iff in H. destruct H as [Hc H].
  now rewrite Hc, IH.
Qed.

Lemma drop_while_app (p : ascii -> bool) (l1 : bytes) (x : ascii) (l2 : bytes) :
  forallb p l1 = true -> p x = false ->
  drop_while p (l1 ++ x :: l2) = x :: l2.
Proof.
  intros H1 Hx. induction l1 as [|c l1 IH]; simpl in *.
  - now rewrite Hx.
  - apply andb_true_iff in H1. destruct H1 as [Hc H1].
    now rewrite Hc, IH.
Qed.

Lemma drop_while_all (p : ascii -> bool) (l : bytes) :
  forallb p l = true -> drop_while p l = [].
Proof.
  induction l as [|c l IH]; simpl; [reflexivity|].
  intros H. apply andb_true_iff in H. destruct H as [Hc H].
  now rewrite Hc, IH.
Qed.

Lemma forallb_rev (p : ascii -> bool) (l : bytes) :
  forallb p (rev l) = forallb p l.
Proof.
  apply eq_true_iff_eq. rewrite !forallb_forall.
  split; intros H x Hx; apply H; [now apply in_rev in Hx | now apply in_rev].
Qed.

Lemma rev_around (p c : bytes) (x : ascii) :
  rev (p ++ x :: c) = (rev c ++ x :: rev p)%list.
Proof. rewrite rev_app_distr. simpl. now rewrite <- app_assoc. Qed.

Lemma drop_while_keep (p : ascii -> bool) (l r : bytes) :
  l <> [] -> forallb (fun a => negb (p a)) l = true ->
  drop_while p (l ++ r) = (l ++ r)%list.
Proof.
  destruct l as [|y l]; [congruence|]. intros _ H. simpl in H.
  apply andb_true_iff in H. destruct H as [Hy _].
  apply negb_true_iff in Hy. simpl. now rewrite Hy.
Qed.

Lemma rev_not_nil (c : bytes) : c <> [] -> rev c <> [].
Proof.
  intros Hne E. apply Hne. rewrite <- (rev_involutive c), E. reflexivity.
Qed.

Lemma strip_element (p c : bytes) :
  c <> [] -> no_separator c = true ->
  strip_trailing_separators (p ++ "/"%char :: c) = (p ++ "/"%char :: c)%list.
Proof.
  intros Hne Hc. unfold strip_trailing_separators.
  assert (Hrc : forallb (fun a => negb (IsPathSeparator a)) (rev c) = true)
    by (now rewrite forallb_rev).
  rewrite rev_around.
  rewrite drop_while_keep by (auto using rev_not_nil).
  now rewrite <- rev_around, rev_involutive.
Qed.

Lemma after_last_element (p c : bytes) :
  no_separator c = true ->
  after_last_separator (p ++ "/"%char :: c) = c.
Proof.
  intros Hc. unfold after_last_separator.
  rewrite rev_around, take_while_app, rev_involutive;
    [reflexivity | now rewrite forallb_rev | reflexivity].
Qed.

(** The last element of [p/c] is [c]. *)
Lemma Base_bytes_element (p c : bytes) :
  c <> [] -> no_separator c = true ->
  Base_bytes (p ++ "/"%char :: c) = c.
Proof.
  intros Hne Hc. unfold Base_bytes.
  destruct (p ++ "/"%char :: c)%list as [|x l] eqn:E.
  { now destruct p. }
  rewrite <- E. clear E x l.
  rewrite strip_element, after_last_element by assumption.
  destruct c; [congruence | reflexivity].
Qed.

(** Separators after the last element do not change it. *)
Lemma Base_bytes_dots_tail (p : bytes) :
  Base_bytes (p ++ dots_tail) = ["."%char; "."%char; "."%char].
Proof.
  unfold Base_bytes.
  destruct (p ++ dots_tail)%list as [|x l] eqn:E.
  { now destruct p. }
  rewrite <- E. clear E x l.
  assert (S : strip_trailing_separators (p ++ dots_tail) =
              (p ++ "/"%char :: ["."%char; "."%char; "."%char])%list).
  { unfold strip_trailing_separators. rewrite rev_app_distr.
    change (drop_while IsPathSeparator (rev dots_tail ++ rev p))
      with (rev ["."%char; "."%char; "."%char] ++ "/"%char :: rev p)%list.
    now rewrite <- rev_around, rev_involutive. }
  rewrite S, after_last_element by reflexivity. reflexivity.
Qed.

(** A path without separator is its own last element. *)
Lemma Base_bytes_single (c : bytes) :
  c <> [] -> no_separator c = true -> Base_bytes c = c.
Proof.
  intros Hne Hc.
  assert (Hrc : forallb (fun a => negb (IsPathSeparator a)) (rev c) = true)
    by (now rewrite forallb_rev).
  assert (S : strip_trailing_separators c = c).
  { unfold strip_trailing_separators.
    rewrite <- (app_nil_r (rev c)).
    rewrite drop_while_keep by (auto using rev_not_nil).
    now rewrite app_nil_r, rev_involutive. }
  assert (L : after_last_separator c = c).
  { unfold after_last_separator.
    now rewrite take_while_all, rev_involutive. }
  unfold Base_bytes. rewrite S, L.
  destruct c; [congruence | reflexivity].
Qed.

(** All but the last element of [p/c] is [p/], cleaned. *)
Lemma Dir_bytes_element (p c : bytes) :
  no_separator c = true ->
  Dir_bytes (p ++ "/"%char :: c) = Clean_bytes (p ++ ["/"%char]).
Proof.
  intros Hc. unfold Dir_bytes, upto_last_separator.
  rewrite rev_around.
  rewrite drop_while_app by (now rewrite ?forallb_rev).
  f_equal. rewrite <- (rev_involutive (p ++ ["/"%char])).
  f_equal. now rewrite rev_around.
Qed.

Lemma Dir_bytes_single (c : bytes) :
  no_separator c = true -> Dir_bytes c = ["."%char].
Proof.
  intros Hc. unfold Dir_bytes, upto_last_separator.
  rewrite drop_while_all by (now rewrite forallb_rev). reflexivity.
Qed.

End PathBytes.

(** ** [Clean] on a path that ends in the element [...] *)

Section CleanDots.

Variable rooted : bool.

Lemma copy_element_eq (l : bytes) (b : lazybuf) :
  (fix copy (l : bytes) (b : lazybuf) {struct l} : lazybuf :=
     match l with
     | [] => b
     | d :: l' =>
         if IsPathSeparator d then clean_loop rooted l b
         else copy l' (buf_append d b)
     end) l b = copy_element rooted l b.
Proof.
  revert b. induction l as [|d l IH]; intros b; [reflexivity|].
  simpl. destruct (IsPathSeparator d); [reflexivity | apply IH].
Qed.

(** One turn of the main loop of [Clean]. *)
Lemma clean_loop_cons (c : ascii) (tl : bytes) (b : lazybuf) :
  clean_loop rooted (c :: tl) b =
  if IsPathSeparator c then clean_loop rooted tl b
  else if is_dot c && at_end_or_separator tl then clean_loop rooted tl b
  else match tl with
       | d :: tl' =>
           if is_dot c && is_dot d && at_end_or_separator tl'
           then clean_loop rooted tl' (dotdot_element rooted b)
           else copy_element rooted tl (buf_append c (add_slash rooted b))
       | [] => copy_element rooted tl (buf_append c (add_slash rooted b))
       end.
Proof.
  cbn [clean_loop].
  destruct (IsPathSeparator c); [reflexivity|].
  destruct (is_dot c && at_end_or_separator tl); [reflexivity|].
  destruct tl as [|d tl']; [reflexivity|].
  destruct (is_dot c && is_dot d && at_end_or_separator tl'); [reflexivity|].
  cbn [copy_element].
  destruct (IsPathSeparator d); [reflexivity | apply copy_element_eq].
Qed.

Lemma rooted_buffer_append (c : ascii) (b : lazybuf) :
  rooted_buffer rooted b -> rooted_buffer rooted (buf_append c b).
Proof.
  intros H R. destruct (H R) as [Hd [pre Hp]]. split; [exact Hd|].
  exists (c :: pre). simpl. now rewrite Hp.
Qed.

Lemma rooted_buffer_add_slash (b : lazybuf) :
  rooted_buffer rooted b -> rooted_buffer rooted (add_slash rooted b).
Proof.
  intros H. unfold add_slash.
  destruct (_ || _); [now apply rooted_buffer_append | exact H].
Qed.

Lemma backtrack_from_keeps_root (last : ascii) (pre : bytes) :
  exists pre',
    backtrack_from 1 last (pre ++ ["/"%char]) = (pre' ++ ["/"%char])%list.
Proof.
  revert last. induction pre as [|c pre IH]; intros last.
  - exists []. reflexivity.
  - change ((c :: pre) ++ ["/"%char])%list with (c :: (pre ++ ["/"%char]))%list.
    cbn [backtrack_from].
    destruct (_ && _); [apply IH | now exists (c :: pre)].
Qed.

Lemma rooted_buffer_dotdot (b : lazybuf) :
  rooted_buffer rooted b -> rooted_buffer rooted (dotdot_element rooted b).
Proof.
  intros H R. destruct (H R) as [Hd [pre Hp]].
  unfold dotdot_element. rewrite R. cbn [negb].
  destruct (Nat.ltb (dotdot b) (List.length (out b))) eqn:Hlt.
  - unfold backtrack. rewrite Hp, Hd.
    destruct pre as [|c pre].
    + rewrite Hp, Hd in Hlt. discriminate Hlt.
    + change ((c :: pre) ++ ["/"%char])%list with (c :: (pre ++ ["/"%char]))%list.
      cbn [out dotdot]. split; [reflexivity|].
      apply backtrack_from_keeps_root.
  - split; [exact Hd | now exists pre].
Qed.

(** What is in the buffer when a real element is about to be written:
    nothing, or a separator on top. *)
Lemma add_slash_top (b : lazybuf) :
  rooted_buffer rooted b ->
  out (add_slash rooted b) = [] \/
  exists r, out (add_slash rooted b) = "/"%char :: r.
Proof.
  intros H. unfold add_slash.
  destruct rooted eqn:R; cbn [andb orb negb].
  - destruct (H eq_refl) as [_ [pre Hp]].
    destruct (Nat.eqb (List.length (out b)) 1) eqn:E; cbn [negb].
    + right. rewrite Hp in *. destruct pre as [|x [|y pre]];
        [now exists [] | discriminate E | discriminate E].
    + right. now exists (out b).
  - destruct (Nat.eqb (List.length (out b)) 0) eqn:E; cbn [negb].
    + left. destruct (out b); [reflexivity | discriminate E].
    + right. now exists (out b).
Qed.

Lemma clean_loop_dots_tail (b : lazybuf) :
  rooted_buffer rooted b ->
  ends_in_dots (out (clean_loop rooted dots_tail b)).
Proof.
  intros H.
  assert (E : out (clean_loop rooted dots_tail b) =
              "."%char :: "."%char :: "."%char :: out (add_slash rooted b))
    by reflexivity.
  rewrite E. eexists. split; [reflexivity | now apply add_slash_top].
Qed.

(** Whatever precedes it, the suffix [/.../] leaves [...] on top of the
    buffer, both from the main loop and from inside an element copy. *)
Lemma clean_loop_ends_in_dots (n : nat) :
  forall l : bytes, (List.length l <= n)%nat ->
  forall b, rooted_buffer rooted b ->
    ends_in_dots (out (clean_loop rooted (l ++ dots_tail) b)) /\
    ends_in_dots (out (copy_element rooted (l ++ dots_tail) b)).
Proof.
  induction n as [n IHn] using lt_wf_ind.
  assert (IH : forall l b, (List.length l < n)%nat -> rooted_buffer rooted b ->
               ends_in_dots (out (clean_loop rooted (l ++ dots_tail) b)) /\
               ends_in_dots (out (copy_element rooted (l ++ dots_tail) b))).
  { intros l b Hl Hb. exact (IHn (List.length l) Hl l (le_n _) b Hb). }
  clear IHn.
  intros l Hl b Hb.
  assert (CL : ends_in_dots (out (clean_loop rooted (l ++ dots_tail) b))).
  { destruct l as [|c l'].
    - now apply clean_loop_dots_tail.
    - simpl in Hl.
      change ((c :: l') ++ dots_tail)%list with (c :: (l' ++ dots_tail))%list.
      rewrite clean_loop_cons.
      destruct (IsPathSeparator c).
      { apply (proj1 (IH l' b ltac:(lia) Hb)). }
      destruct (is_dot c && at_end_or_separator (l' ++ dots_tail)).
      { apply (proj1 (IH l' b ltac:(lia) Hb)). }
      assert (Hb' : rooted_buffer rooted (buf_append c (add_slash rooted b)))
        by (now apply rooted_buffer_append, rooted_buffer_add_slash).
      destruct l' as [|d l'']; cbn [app].
      + cbn [dots_tail].
        replace (is_dot c && is_dot "/"%char) with false
          by (now rewrite andb_false_r).
        cbn [andb].
        apply (proj2 (IH [] _ ltac:(simpl; lia) Hb')).
      + simpl in Hl.
        destruct (is_dot c && is_dot d && at_end_or_separator (l'' ++ dots_tail)).
        * apply (proj1 (IH l'' _ ltac:(lia) (rooted_buffer_dotdot b Hb))).
        * apply (proj2 (IH (d :: l'') _ ltac:(simpl; lia) Hb')). }
  split; [exact CL|].
  destruct l as [|d l'].
  - exact (clean_loop_dots_tail b Hb).
  - change ((d :: l') ++ dots_tail)%list with (d :: (l' ++ dots_tail))%list.
    cbn [copy_element].
    destruct (IsPathSeparator d); [exact CL|].
    simpl in Hl.
    apply (proj2 (IH l' _ ltac:(lia) (rooted_buffer_append d b Hb))).
Qed.

Lemma Base_bytes_ends_in_dots (p : bytes) :
  ends_in_dots (rev p) -> Base_bytes p = ["."%char; "."%char; "."%char].
Proof.
  intros [rest [E Hrest]].
  apply (f_equal (@rev ascii)) in E. rewrite rev_involutive in E.
  destruct Hrest as [-> | [r ->]]; subst p.
  - reflexivity.
  - change (rev ("."%char :: "."%char :: "."%char :: "/"%char :: r))
      with (rev (rev ["."%char; "."%char; "."%char] ++ "/"%char :: r)).
    rewrite <- (rev_involutive r) at 1.
    rewrite <- rev_around, rev_involutive.
    now apply Base_bytes_element.
Qed.

End CleanDots.

Section CleanSuffix.

(** [Clean] keeps the element [...] at the end of a path, with or
    without what precedes it. *)
Lemma Clean_bytes_dots_tail (q : bytes) :
  ends_in_dots (rev (Clean_bytes (q ++ dots_tail))).
Proof.
  unfold Clean_bytes.
  destruct (q ++ dots_tail)%list as [|c tl] eqn:E.
  { now destruct q. }
  set (rooted := IsPathSeparator c).
  set (b0 := if rooted then mkBuf ["/"%char] 1 else mkBuf [] 0).
  assert (Hb0 : rooted_buffer rooted b0).
  { intros R. unfold b0. rewrite R. split; [reflexivity | now exists []]. }
  assert (L : clean_loop rooted (if rooted then tl else c :: tl) b0 =
              clean_loop rooted (q ++ dots_tail) b0).
  { rewrite E. destruct rooted eqn:R; [|reflexivity].
    rewrite clean_loop_cons. fold rooted. now rewrite R. }
  rewrite L.
  pose proof (proj1 (clean_loop_ends_in_dots rooted (List.length q) q
                       (le_n _) b0 Hb0)) as G.
  cbv zeta.
  destruct G as [rest [G Hrest]].
  rewrite G. cbn [List.length Nat.eqb]. rewrite rev_involutive, G.
  exists rest. now split.
Qed.

Lemma Base_Clean_dots_tail (q : bytes) :
  Base_bytes (Clean_bytes (q ++ dots_tail)) = ["."%char; "."%char; "."%char].
Proof. apply Base_bytes_ends_in_dots, Clean_bytes_dots_tail. Qed.

End CleanSuffix.

Section RecursivePath.

#[local] Open Scope string_scope.

Lemma bytes_of_dots_tail (p : string) :
  list_ascii_of_string (p ++ "/.../") =
  (list_ascii_of_string p ++ dots_tail)%list.
Proof. now rewrite list_ascii_of_string_app. Qed.

(** The else branch of [recursivePath]. *)
Lemma recursivePath_false (path : string) :
  Base path <> "..." -> recursivePath path = (path, false).
Proof.
  intros H. unfold recursivePath.
  now rewrite (proj2 (String.eqb_neq _ _) H).
Qed.

(** A path [p/...] gives [p/] cleaned, and the flag. *)
Lemma recursivePath_suffix (p : string) :
  recursivePath (p ++ "/...") = (Clean (p ++ "/"), true).
Proof.
  unfold recursivePath, Base, Dir, Clean.
  rewrite !list_ascii_of_string_app. cbn [list_ascii_of_string].
  rewrite Base_bytes_element by (reflexivity || discriminate).
  rewrite Dir_bytes_element by reflexivity.
  reflexivity.
Qed.

(** A path [p/c] whose last element [c] is not [...] comes back as it
    is. *)
Lemma recursivePath_element (p c : string) :
  is_element c -> c <> "..." ->
  recursivePath (p ++ "/" ++ c) = (p ++ "/" ++ c, false).
Proof.
  intros [Hne Hc] Hd. apply recursivePath_false.
  unfold Base. rewrite list_ascii_of_string_app.
  cbn [append list_ascii_of_string].
  rewrite Base_bytes_element.
  - now rewrite string_of_list_ascii_of_string.
  - destruct c; [congruence | discriminate].
  - exact Hc.
Qed.

(** A path that is one element other than [...] comes back as it is. *)
Lemma recursivePath_single (c : string) :
  is_element c -> c <> "..." -> recursivePath c = (c, false).
Proof.
  intros [Hne Hc] Hd. apply recursivePath_false.
  unfold Base. rewrite Base_bytes_single.
  - now rewrite string_of_list_ascii_of_string.
  - destruct c; [congruence | discriminate].
  - exact Hc.
Qed.

(** With a separator after the suffix the flag is still set, and what
    comes back is the whole path cleaned: its last element is [...]
    again. *)
Lemma recursivePath_dots_tail (p : string) :
  Base (p ++ "/.../") = "..." /\
  recursivePath (p ++ "/.../") = (Clean (p ++ "/.../"), true) /\
  Base (Clean (p ++ "/.../")) = "...".
Proof.
  assert (B : Base (p ++ "/.../") = "...").
  { unfold Base. now rewrite bytes_of_dots_tail, Base_bytes_dots_tail. }
  split; [exact B|]. split.
  - unfold recursivePath. rewrite B. cbn [String.eqb Ascii.eqb Bool.eqb].
    unfold Dir, Clean. rewrite bytes_of_dots_tail.
    change dots_tail with (["/"%char; "."%char; "."%char; "."%char] ++ ["/"%char])%list.
    rewrite app_assoc.
    change (?l ++ ["/"%char])%list with (l ++ "/"%char :: [])%list.
    now rewrite Dir_bytes_element.
  - unfold Base, Clean.
    rewrite list_ascii_of_string_of_list_ascii, bytes_of_dots_tail.
    now rewrite Base_Clean_dots_tail.
Qed.

End RecursivePath.

Section GoPathTables.

#[local] Open Scope string_scope.

(** Rows of the tables [cleantests], [basetests] and [dirtests] of Go's
    [path/filepath] tests, as a check of the transcription. *)
Example Clean_table :
  map Clean
    [ "abc"; "abc/def"; "."; ".."; "../../abc"; "/abc"; "/"; EmptyString;
      "abc/"; "a/b/c/"; "./"; "../../"; "/abc/"; "abc//def//ghi"; "///abc";
      "//abc//"; "abc/./def"; "/./abc/def"; "abc/."; "abc/def/ghi/../jkl";
      "abc/def/../ghi/../jkl"; "abc/def/.."; "abc/def/../.."; "/abc/def/../..";
      "abc/def/../../.."; "/abc/def/../../..";
      "abc/def/../../../ghi/jkl/../../../mno"; "/../abc"; "abc/./../def";
      "abc//./../def"; "abc/../../././../def" ]
  = [ "abc"; "abc/def"; "."; ".."; "../../abc"; "/abc"; "/"; ".";
      "abc"; "a/b/c"; "."; "../.."; "/abc"; "abc/def/ghi"; "/abc";
      "/abc"; "abc/def"; "/abc/def"; "abc"; "abc/def/jkl";
      "abc/jkl"; "abc"; "."; "/";
      ".."; "/";
      "../../mno"; "/abc"; "def";
      "def"; "../../def" ].
Proof. reflexivity. Qed.

Example Base_table :
  map Base
    [ EmptyString; "."; "/."; "/"; "////"; "x/"; "abc"; "abc/def"; "a/b/.x";
      "a/b/c."; "a/b/c.x" ]
  = [ "."; "."; "."; "/"; "/"; "x"; "abc"; "def"; ".x"; "c."; "c.x" ].
Proof. reflexivity. Qed.

Example Dir_table :
  map Dir
    [ EmptyString; "."; "/."; "/"; "////"; "/foo"; "x/"; "abc"; "abc/def";
      "a/b/.x"; "a/b/c."; "a/b/c.x" ]
  = [ "."; "."; "/"; "/"; "/"; "/"; "x"; "."; "abc"; "a/b"; "a/b"; "a/b" ].
Proof. reflexivity. Qed.

End GoPathTables.

(** C3. On a path whose last element is [...] followed by a separator,
    [recursivePath] sets the flag and returns the path cleaned, not its
    parent: for ["/a/b/.../"] the result is ["/a/b/..."], whose last element
    is still [...].  Without the trailing separator the parent comes back:
    ["/a/b/..."] gives ["/a/b"], and [p/...] gives [p/] cleaned. *)
Theorem C3_recursivePath_trailing_separator :
  Base "/a/b/.../" = "..."%string /\
  recursivePath "/a/b/.../" = ("/a/b/..."%string, true) /\
  recursivePath "/a/b/..." = ("/a/b"%string, true) /\
  (forall p : string,
      Base (p ++ "/.../") = "..."%string /\
      snd (recursivePath (p ++ "/.../")) = true /\
      Base (fst (recursivePath (p ++ "/.../"))) = "..."%string) /\
  (forall p : string,
      recursivePath (p ++ "/...") = (Clean (p ++ "/"), true)).
Proof.
  split; [reflexivity|]. split; [reflexivity|]. split; [reflexivity|].
  split.
  - intros p. destruct (recursivePath_dots_tail p) as [B [R C]].
    rewrite R. cbn [fst snd]. auto.
  - exact recursivePath_suffix.
Qed.

(** C10. One call strips one [...] element at most: ["a/.../..."] gives
    ["a/..."], which still ends in [...], and the flag; ["..."] alone gives
    ["."] and the flag.  In general [q/.../...] gives the flag and a path
    whose last element is [...]. *)
Theorem C10_recursivePath_strips_one :
  recursivePath "a/.../..." = ("a/..."%string, true) /\
  Base "a/..." = "..."%string /\
  recursivePath "..." = ("."%string, true) /\
  (forall q : string,
      snd (recursivePath (q ++ "/.../...")) = true /\
      fst (recursivePath (q ++ "/.../...")) = Clean (q ++ "/.../") /\
      Base (fst (recursivePath (q ++ "/.../..."))) = "..."%string).
Proof.
  split; [reflexivity|]. split; [reflexivity|]. split; [reflexivity|].
  intros q.
  assert (E : (q ++ "/.../...")%string = ((q ++ "/...") ++ "/...")%string)
    by (now rewrite sapp_assoc).
  rewrite E, recursivePath_suffix. cbn [fst snd].
  rewrite sapp_assoc. cbn [append].
  split; [reflexivity|]. split; [reflexivity|].
  apply (recursivePath_dots_tail q).
Qed.

(** ** Walking with [visit] *)

Section FsnodeInduction.

Variable P : fsnode -> Prop.
Hypothesis P_regular : P Regular.
Hypothesis P_unreadable : forall e, P (Unreadable e).
Hypothesis P_directory :
  forall entries,
    Forall (fun p : string * stat =>
              match snd p with inl _ => True | inr child => P child end)
           entries ->
    P (Directory entries).

(** Induction on trees: the entries of a directory satisfy the
    property when the directory is reached. *)
Lemma fsnode_induction : forall node, P node.
Proof.
  fix IH 1. intros [ | e | entries].
  - exact P_regular.
  - apply P_unreadable.
  - apply P_directory.
    induction entries as [|[name st] rest IHrest]; constructor.
    + destruct st as [e | child]; [exact I | apply IH].
    + exact IHrest.
Qed.

End FsnodeInduction.

Section WalkVisit.

Variable SkipDir : error.
Variable lstat_root : string -> stat.

(** The walk with [visit] below a node: it ends the process at the first
    failure, and otherwise appends every path in pre-order and returns
    nil. *)
Lemma walk_visit (node : fsnode) :
  forall (path : string) (files : list string),
    walk SkipDir visit path node files =
    match tree_failure node with
    | Some e => Exit e
    | None => Ret None (files ++ map fst (tree_entries path node))
    end.
Proof.
  induction node as [ | e | entries HF] using fsnode_induction;
    intros path files; try reflexivity.
  cbn [walk tree_failure tree_entries map fst].
  unfold bind at 1. cbn [visit append_file bind ret].
  match goal with |- context [(files ++ path :: map fst ?x)%list] =>
    replace (files ++ path :: map fst x)%list
      with ((files ++ [path]) ++ map fst x)%list
      by (now rewrite <- app_assoc)
  end.
  generalize (files ++ [path])%list as st.
  induction HF as [|[name [err | child]] rest Hchild _ IHrest]; intros st.
  - cbn. now rewrite app_nil_r.
  - reflexivity.
  - cbn [snd] in Hchild. unfold bind at 1. rewrite Hchild.
    destruct (tree_failure child) as [e|]; [reflexivity|].
    rewrite IHrest.
    match goal with |- context [match ?f rest with _ => _ end] =>
      destruct (f rest); [reflexivity|] end.
    now rewrite map_app, app_assoc.
Qed.

Lemma Walk_visit (root : string) (files : list string) :
  Walk SkipDir lstat_root root visit files =
  match root_failure lstat_root root with
  | Some e => Exit e
  | None => Ret None (files ++ map fst (root_entries lstat_root root))
  end.
Proof.
  unfold Walk, root_failure, root_entries, bind.
  destruct (lstat_root root) as [err | node]; [reflexivity|].
  rewrite walk_visit. now destruct (tree_failure node).
Qed.

Lemma range_names_visit (names : list string) (files : list string) :
  range_names SkipDir lstat_root names files =
  match roots_failure lstat_root names with
  | Some e => Exit e
  | None =>
      let all := (files ++ map fst (flat_map (root_entries lstat_root) names))%list in
      Ret (all, None) all
  end.
Proof.
  revert files. induction names as [|v rest IH]; intros files.
  - cbn. now rewrite app_nil_r.
  - cbn [range_names roots_failure flat_map]. unfold bind.
    rewrite Walk_visit.
    destruct (root_failure lstat_root v) as [e|]; [reflexivity|].
    rewrite IH. destruct (roots_failure lstat_root rest); [reflexivity|].
    cbv zeta. now rewrite map_app, app_assoc.
Qed.

(** Keeping the directories of the entries below a node gives the
    directories below it. *)
Lemma directories_of_app (a b : list (string * bool)) :
  directories_of (a ++ b) = (directories_of a ++ directories_of b)%list.
Proof. unfold directories_of. now rewrite filter_app, map_app. Qed.

Lemma directories_of_tree (node : fsnode) :
  forall path : string,
    directories_of (tree_entries path node) = tree_dirs path node.
Proof.
  induction node as [ | e | entries HF] using fsnode_induction;
    intros path; try reflexivity.
  cbn [tree_entries tree_dirs].
  match goal with |- directories_of ((path, true) :: ?x) = _ =>
    change (directories_of ((path, true) :: x)) with (path :: directories_of x)
  end.
  f_equal.
  induction HF as [|[name [err | child]] rest Hchild _ IHrest].
  - reflexivity.
  - exact IHrest.
  - cbn [snd] in Hchild.
    now rewrite directories_of_app, Hchild, IHrest.
Qed.

Lemma directories_of_roots (names : list string) :
  directories_of (flat_map (root_entries lstat_root) names) =
  flat_map (root_dirs lstat_root) names.
Proof.
  induction names as [|v rest IH]; [reflexivity|].
  cbn [flat_map]. rewrite directories_of_app, IH. f_equal.
  unfold root_entries, root_dirs.
  destruct (lstat_root v); [reflexivity | apply directories_of_tree].
Qed.

End WalkVisit.

(** C1, as stated, on the sample tree.  The root ["missing"] does not
    stat: the walk does not return an error, it ends the process.  The root
    ["d"] is walkable: the list returned holds the regular files ["d/f"]
    and ["d/s/g"] besides the directories ["d"] and ["d/s"]. *)
Lemma C1_GetDirNames_exits_and_lists_files :
  root_failure sample_lstat "missing" = Some ENOENT /\
  GetDirNames sample_SkipDir sample_lstat ["missing"%string] = Exit ENOENT /\
  (~ exists files e st,
       GetDirNames sample_SkipDir sample_lstat ["missing"%string]
       = Ret (files, Some e) st) /\
  roots_failure sample_lstat ["d"%string] = None /\
  root_dirs sample_lstat "d" = ["d"%string; "d/s"%string] /\
  (exists st,
      GetDirNames sample_SkipDir sample_lstat ["d"%string]
      = Ret (["d"%string; "d/f"%string; "d/s"%string; "d/s/g"%string], None) st) /\
  (~ exists st,
       GetDirNames sample_SkipDir sample_lstat ["d"%string]
       = Ret (root_dirs sample_lstat "d", None) st).
Proof.
  split; [reflexivity|]. split; [reflexivity|]. split.
  { intros [files [e [st H]]]. vm_compute in H. discriminate H. }
  split; [reflexivity|]. split; [reflexivity|]. split.
  { eexists. vm_compute. reflexivity. }
  intros [st H]. vm_compute in H. discriminate H.
Qed.

(** C1, amended. [GetDirNames] never returns an error.  At the first root
    or entry below a root that does not stat or does not list, in walk
    order, [log.Fatal] ends the process.  Otherwise it returns, with a nil
    error, the paths the walk visits under the roots in pre-order, and the
    directories among them are exactly the directories under the roots, in
    pre-order. *)
Theorem C1_GetDirNames_walk
  (SkipDir : error) (lstat_root : string -> stat) (names : list string) :
  let ents := flat_map (root_entries lstat_root) names in
  GetDirNames SkipDir lstat_root names =
    match roots_failure lstat_root names with
    | Some e => Exit e
    | None => Ret (map fst ents, None) (map fst ents)
    end /\
  directories_of ents = flat_map (root_dirs lstat_root) names.
Proof.
  split; [|apply directories_of_roots].
  unfold GetDirNames. rewrite range_names_visit.
  destruct (roots_failure lstat_root names); reflexivity.
Qed.

(** * Further properties of the code *)

(** ** What the stringifier can see *)

Section OpStringBits.

#[local] Open Scope string_scope.

Lemma Has_single_bit (o : Op) (k : Z) :
  0 <= k -> Has o (2 ^ k) = Z.testbit o k.
Proof.
  intros Hk. apply eq_true_iff_eq. rewrite Has_true_iff. split.
  - intros H. apply H. rewrite Z.pow2_bits_eqb by exact Hk. apply Z.eqb_refl.
  - intros H i Hi. rewrite Z.pow2_bits_eqb in Hi by exact Hk.
    apply Z.eqb_eq in Hi. now subst i.
Qed.

Lemma Has_masked (o h mask : Op) :
  Z.land h mask = h -> Has (Z.land o mask) h = Has o h.
Proof.
  intros Hh. unfold Has.
  now rewrite <- Z.land_assoc, (Z.land_comm mask h), Hh.
Qed.

Lemma string_table_in_mask :
  Forall (fun e : Op * string => Z.land (fst e) inspected_mask = fst e)
         string_table.
Proof. repeat constructor. Qed.

Lemma names_of_masked (o : Op) :
  names_of (Z.land o inspected_mask) = names_of o.
Proof.
  unfold names_of. f_equal. apply filter_ext_in. intros e He.
  pose proof string_table_in_mask as T. rewrite Forall_forall in T.
  apply Has_masked. now apply T.
Qed.

(** Membership of a name in [names_of] is the outcome of its test. *)
Lemma snd_NoDup_inj {A B} (t : list (A * B)) (a a' : A) (b : B) :
  NoDup (map snd t) -> In (a, b) t -> In (a', b) t -> a = a'.
Proof.
  induction t as [|[x y] t IH]; intros ND H1 H2; [destruct H1|].
  simpl in ND. inversion ND as [|? ? Hnin ND']; subst.
  destruct H1 as [E1|H1], H2 as [E2|H2].
  - congruence.
  - inversion E1; subst. exfalso. apply Hnin.
    apply in_map_iff. now exists (a', b).
  - inversion E2; subst. exfalso. apply Hnin.
    apply in_map_iff. now exists (a, b).
  - now apply IH.
Qed.

Lemma string_table_names_NoDup : NoDup (map snd string_table).
Proof.
  repeat (constructor; [simpl; intuition discriminate|]). constructor.
Qed.

Lemma names_of_In (o h : Op) (n : string) :
  In (h, n) string_table -> (In n (names_of o) <-> Has o h = true).
Proof.
  intros Hin. unfold names_of. rewrite in_map_iff. split.
  - intros [[h' n'] [E H]]. simpl in E. subst n'.
    apply filter_In in H. destruct H as [H' Hf]. simpl in Hf.
    now rewrite (snd_NoDup_inj string_table h h' n string_table_names_NoDup Hin H').
  - intros Hf. exists (h, n). split; [reflexivity|].
    apply filter_In. now split.
Qed.

Lemma names_of_NoDup (o : Op) : NoDup (names_of o).
Proof.
  unfold names_of. generalize string_table_names_NoDup.
  induction string_table as [|[h n] t IH]; intros ND; [constructor|].
  simpl in ND. inversion ND as [|? ? Hnin ND']; subst.
  simpl. destruct (Has o h); [|now apply IH].
  simpl. constructor; [|now apply IH].
  intros H. apply Hnin. apply in_map_iff in H.
  destruct H as [e [E He]]. apply filter_In in He.
  apply in_map_iff. exists e. tauto.
Qed.

(** The fields of the string. *)
Lemma split_bar_render (names : list string) :
  Forall (fun x => has_bar x = false) names ->
  split_bar (render names) =
  match names with [] => ["[no events]"] | _ => names end.
Proof.
  intros H. destruct names as [|n rest]; [reflexivity|].
  unfold render. apply split_bar_join; [discriminate | exact H].
Qed.

Lemma names_of_no_bar (o : Op) :
  Forall (fun x => has_bar x = false) (names_of o).
Proof.
  apply Forall_forall. intros x Hx.
  pose proof subflag_names_no_bar as NB. rewrite Forall_forall in NB.
  apply NB. exact (names_of_subflags o x Hx).
Qed.

Lemma split_bar_Op_String (o : Op) :
  split_bar (Op_String o) =
  match names_of o with [] => ["[no events]"] | _ => names_of o end.
Proof.
  rewrite Op_String_render. apply split_bar_render, names_of_no_bar.
Qed.

Lemma no_events_not_subflag : ~ In "[no events]" subflag_names.
Proof. simpl. intuition discriminate. Qed.

(** The string determines the names. *)
Lemma Op_String_names (o1 o2 : Op) :
  Op_String o1 = Op_String o2 -> names_of o1 = names_of o2.
Proof.
  intros E. apply (f_equal split_bar) in E.
  rewrite !split_bar_Op_String in E.
  destruct (names_of o1) as [|n1 r1] eqn:E1, (names_of o2) as [|n2 r2] eqn:E2;
    try exact E; try reflexivity; exfalso; apply no_events_not_subflag.
  - apply (names_of_subflags o2 _). rewrite E2, <- E. now left.
  - apply (names_of_subflags o1 _). rewrite E1, E. now left.
Qed.

(** Every inspected bit is a mask of the table, and the union of the
    masks has no other bit. *)
Lemma inspected_bits_in_table (k : Z) :
  In k inspected_bits -> 0 <= k /\ In (2 ^ k) (map fst string_table).
Proof.
  intros H. simpl in H.
  repeat (destruct H as [<-|H]; [split; [lia | simpl; tauto]|]).
  destruct H.
Qed.

Lemma inspected_mask_bits (i : Z) :
  Z.testbit inspected_mask i = true -> In i inspected_bits.
Proof.
  intros H.
  destruct (Z.ltb_spec i 0) as [Hneg|Hpos].
  { now rewrite Z.testbit_neg_r in H. }
  destruct (Z.ltb_spec i 31) as [Hlt|Hge].
  - assert (D : forallb (fun n => implb (Z.testbit inspected_mask (Z.of_nat n))
                                        (existsb (Z.eqb (Z.of_nat n)) inspected_bits))
                        (seq 0 31) = true) by (vm_compute; reflexivity).
    rewrite forallb_forall in D.
    specialize (D (Z.to_nat i)). rewrite Z2Nat.id in D by exact Hpos.
    rewrite H in D. cbn [implb] in D.
    assert (Hin : In (Z.to_nat i) (seq 0 31)) by (apply in_seq; lia).
    apply D in Hin. apply existsb_exists in Hin.
    destruct Hin as [x [Hx Ex]]. apply Z.eqb_eq in Ex. now subst x.
  - rewrite Z.bits_above_log2 in H; [discriminate H | vm_compute; congruence |].
    change (Z.log2 inspected_mask) with 30. lia.
Qed.

Lemma names_of_masked_value (o1 o2 : Op) :
  names_of o1 = names_of o2 ->
  Z.land o1 inspected_mask = Z.land o2 inspected_mask.
Proof.
  intros E. apply Z.bits_inj'. intros i _.
  rewrite !Z.land_spec.
  destruct (Z.testbit inspected_mask i) eqn:Hm; [|now rewrite !andb_false_r].
  rewrite !andb_true_r.
  destruct (inspected_bits_in_table i (inspected_mask_bits i Hm)) as [Hi Hin].
  apply in_map_iff in Hin. destruct Hin as [[h n] [Eh Hin]]. simpl in Eh. subst h.
  rewrite <- !Has_single_bit by exact Hi.
  apply eq_true_iff_eq.
  rewrite <- !(names_of_In _ _ _ Hin). now rewrite E.
Qed.

End OpStringBits.

Lemma Op_String_eq_masked (o1 o2 : Op) :
  Op_String o1 = Op_String o2 <->
  Z.land o1 inspected_mask = Z.land o2 inspected_mask.
Proof.
  split.
  - intros E. now apply names_of_masked_value, Op_String_names.
  - intros E. rewrite !Op_String_render.
    rewrite <- (names_of_masked o1), <- (names_of_masked o2). now rewrite E.
Qed.

(** X1. Two [Op] values are rendered as the same string exactly when they
    agree on the bits the stringifier inspects; bits outside those (such
    as IN_Q_OVERFLOW, IN_IGNORED or IN_ONESHOT) never show. *)
Theorem Op_String_eq_iff_inspected_bits (o1 o2 : Op) :
  Op_String o1 = Op_String o2 <->
  Z.land o1 inspected_mask = Z.land o2 inspected_mask.
Proof. exact (Op_String_eq_masked o1 o2). Qed.

(** X2. The stringifier returns ["[no events]"] only for an [Op] that has
    none of the inspected bits: the converse of the rule for the
    placeholder. *)
Theorem Op_String_no_events_iff (o : Op) :
  Op_String o = "[no events]"%string <-> Z.land o inspected_mask = 0.
Proof.
  change "[no events]"%string with (Op_String 0). split.
  - intros E. apply Op_String_names, names_of_masked_value in E. exact E.
  - intros E. rewrite !Op_String_render.
    rewrite <- (names_of_masked o), E. reflexivity.
Qed.

(** X3. Splitting the string at the bars gives back the names whose test
    succeeded, in source order and without repetition; for an [Op] without
    inspected bits the only field is the placeholder. *)
Theorem split_bar_Op_String_names (o : Op) :
  split_bar (Op_String o) =
    (if Z.land o inspected_mask =? 0 then ["[no events]"%string]
     else names_of o) /\
  NoDup (split_bar (Op_String o)).
Proof.
  assert (S := split_bar_Op_String o).
  assert (N : names_of o = [] <-> Z.land o inspected_mask = 0).
  { split.
    - intros E. apply (names_of_masked_value o 0). exact E.
    - apply names_of_outside_mask. }
  split.
  - rewrite S. destruct (Z.eqb_spec (Z.land o inspected_mask) 0) as [E|E].
    + now rewrite (proj2 N E).
    + destruct (names_of o); [exfalso; apply E; now apply N | reflexivity].
  - rewrite S. destruct (names_of o) as [|n r] eqn:En.
    + repeat constructor. intros [].
    + rewrite <- En. apply names_of_NoDup.
Qed.

(** X4. The string shows IN_CLOSE exactly when it shows both
    IN_CLOSE_NOWRITE and IN_CLOSE_WRITE: the mask of IN_CLOSE is the union
    of the other two. *)
Theorem Op_String_IN_CLOSE (o : Op) :
  In "IN_CLOSE"%string (split_bar (Op_String o)) <->
  In "IN_CLOSE_NOWRITE"%string (split_bar (Op_String o)) /\
  In "IN_CLOSE_WRITE"%string (split_bar (Op_String o)).
Proof.
  assert (F : forall n, In n subflag_names ->
                (In n (split_bar (Op_String o)) <-> In n (names_of o))).
  { intros n Hn. rewrite split_bar_Op_String.
    destruct (names_of o); [|reflexivity].
    split; [|intros []]. intros [E|[]]. subst n.
    now apply no_events_not_subflag in Hn. }
  rewrite !F by (simpl; tauto).
  rewrite (names_of_In o IN_CLOSE) by (simpl; tauto).
  rewrite (names_of_In o IN_CLOSE_NOWRITE) by (simpl; tauto).
  rewrite (names_of_In o IN_CLOSE_WRITE) by (simpl; tauto).
  change IN_CLOSE with (Z.lor IN_CLOSE_NOWRITE IN_CLOSE_WRITE).
  rewrite Has_lor. apply andb_true_iff.
Qed.

(** ** Printing an event *)

Section EventString.

#[local] Open Scope string_scope.

Lemma has_space_cons (c : ascii) (s : string) :
  has_space (String c s) = Ascii.eqb c " " || has_space s.
Proof. reflexivity. Qed.

Lemma has_space_app (a b : string) :
  has_space (a ++ b) = has_space a || has_space b.
Proof.
  induction a as [|c a IH]; [reflexivity|].
  simpl append. now rewrite !has_space_cons, IH, orb_assoc.
Qed.

Lemma has_space_join (names : list string) :
  Forall (fun n => has_space n = false) names ->
  has_space (join "|" names) = false.
Proof.
  induction names as [|n rest IH]; intros H; [reflexivity|].
  inversion H as [|? ? Hn Hrest]; subst.
  destruct rest as [|m rest]; [exact Hn|].
  change (join "|" (n :: m :: rest)) with (n ++ String "|" (join "|" (m :: rest))).
  rewrite has_space_app, Hn, has_space_cons, (IH Hrest). reflexivity.
Qed.

(** A string without space is cut off by the first space after it. *)
Lemma cut_at_space (a b x y : string) :
  has_space a = false -> has_space b = false ->
  a ++ String " " x = b ++ String " " y -> a = b /\ x = y.
Proof.
  revert b. induction a as [|c a IH]; intros [|d b] Ha Hb E; simpl in E.
  - inversion E. now split.
  - inversion E; subst. rewrite has_space_cons in Hb. discriminate Hb.
  - inversion E; subst. rewrite has_space_cons in Ha. discriminate Ha.
  - inversion E; subst.
    rewrite has_space_cons in Ha, Hb.
    apply orb_false_iff in Ha. apply orb_false_iff in Hb.
    destruct (IH b (proj2 Ha) (proj2 Hb) H1) as [-> ->]. now split.
Qed.

Lemma sapp_space_inj (a b : string) : a ++ " " = b ++ " " -> a = b.
Proof.
  revert b. induction a as [|c a IH]; intros [|d b] E; simpl in E.
  - reflexivity.
  - inversion E. destruct b; discriminate.
  - inversion E. destruct a; discriminate.
  - inversion E. f_equal. now apply IH.
Qed.

(** What the stringifier returns when some test succeeds: no space, and
    a first byte that the placeholder does not have. *)
Lemma Op_String_names_shape (o : Op) :
  names_of o <> [] ->
  has_space (Op_String o) = false /\ exists tl, Op_String o = String "I" tl.
Proof.
  intros Hne. rewrite Op_String_render.
  pose proof (names_of_subflags o) as Hincl.
  destruct (names_of o) as [|n rest]; [congruence|]. unfold render.
  split.
  - apply has_space_join. apply Forall_forall. intros x Hx.
    assert (NS : forallb (fun s => negb (has_space s)) subflag_names = true)
      by reflexivity.
    rewrite forallb_forall in NS. apply negb_true_iff, NS, Hincl, Hx.
  - assert (Hn : In n subflag_names) by (apply Hincl; now left).
    assert (S : exists tl, n = String "I" tl).
    { simpl in Hn.
      repeat (destruct Hn as [<-|Hn]; [eexists; reflexivity|]).
      destruct Hn. }
    destruct S as [tl ->]. destruct rest; simpl; eexists; reflexivity.
Qed.

Lemma Event_String_parts (e1 e2 : Event) :
  Event_String e1 = Event_String e2 ->
  Op_String (EvOp e1) = Op_String (EvOp e2) /\ Name e1 = Name e2.
Proof.
  unfold Event_String. intros E.
  destruct (names_of (EvOp e1)) as [|n1 r1] eqn:N1;
    destruct (names_of (EvOp e2)) as [|n2 r2] eqn:N2.
  - rewrite !Op_String_render, N1, N2 in *. simpl in E.
    inversion E as [E']. split; [reflexivity | now apply sapp_space_inj].
  - destruct (Op_String_names_shape (EvOp e2)) as [_ [tl S2]]; [congruence|].
    rewrite (Op_String_render (EvOp e1)), N1, S2 in E. discriminate E.
  - destruct (Op_String_names_shape (EvOp e1)) as [_ [tl S1]]; [congruence|].
    rewrite (Op_String_render (EvOp e2)), N2, S1 in E. discriminate E.
  - destruct (Op_String_names_shape (EvOp e1)) as [H1 _]; [congruence|].
    destruct (Op_String_names_shape (EvOp e2)) as [H2 _]; [congruence|].
    destruct (cut_at_space _ _ _ _ H1 H2 E) as [EO EN].
    split; [exact EO | now apply sapp_space_inj].
Qed.

End EventString.

(** X5. Two events print alike exactly when they carry the same name and
    agree on the inspected bits of their operation: the name can always be
    read back, whatever bytes it holds. *)
Theorem Event_String_eq_iff (e1 e2 : Event) :
  Event_String e1 = Event_String e2 <->
  Name e1 = Name e2 /\
  Z.land (EvOp e1) inspected_mask = Z.land (EvOp e2) inspected_mask.
Proof.
  split.
  - intros E. destruct (Event_String_parts e1 e2 E) as [EO EN].
    split; [exact EN | now apply Op_String_eq_masked].
  - intros [EN EO]. unfold Event_String.
    now rewrite EN, (proj2 (Op_String_eq_masked _ _) EO).
Qed.

(** ** The receive loop of the command *)

Section WatchLoop.

Lemma is_new_directory_bits (e : Event) :
  is_new_directory e =
  (Z.land (EvOp e) inspected_mask =? Z.lor IN_CREATE IN_ISDIR).
Proof.
  unfold is_new_directory. apply eq_true_iff_eq.
  rewrite String.eqb_eq, Z.eqb_eq.
  change "IN_CREATE|IN_ISDIR"%string with (Op_String (Z.lor IN_CREATE IN_ISDIR)).
  rewrite Op_String_eq_masked. reflexivity.
Qed.

Lemma added_app (a b : list action) : added (a ++ b) = (added a ++ added b)%list.
Proof. apply flat_map_app. Qed.

Lemma printed_app (a b : list action) :
  printed (a ++ b) = (printed a ++ printed b)%list.
Proof. apply flat_map_app. Qed.

Lemma added_on_event (e : Event) :
  added (on_event e) = if is_new_directory e then [Name e] else [].
Proof. unfold on_event. now destruct (is_new_directory e). Qed.

Lemma printed_on_event (e : Event) :
  List.length (printed (on_event e)) = 1%nat.
Proof. unfold on_event. now destruct (is_new_directory e). Qed.

End WatchLoop.

(** X6. The loop's test for a new directory, a comparison of the rendered
    operation with ["IN_CREATE|IN_ISDIR"], succeeds exactly when the
    inspected bits of the operation are IN_CREATE and IN_ISDIR and no
    other: one more inspected flag (IN_OPEN, say) makes it fail, a flag
    that is not inspected makes no difference. *)
Theorem is_new_directory_iff (e : Event) :
  is_new_directory e = true <->
  Z.land (EvOp e) inspected_mask = Z.lor IN_CREATE IN_ISDIR.
Proof. rewrite is_new_directory_bits. apply Z.eqb_eq. Qed.

(** X7. Run on a sequence of receptions, the loop calls [w.Add] with the
    names of the events received before the first closed channel whose
    inspected bits are exactly IN_CREATE and IN_ISDIR, in order of arrival,
    and never for an error; it prints one line for each reception before
    the first closed channel and nothing after it. *)
Theorem watchLoop_adds_and_prints (rs : list reception) :
  added (watchLoop rs) =
    map Name
      (filter (fun e => Z.land (EvOp e) inspected_mask =? Z.lor IN_CREATE IN_ISDIR)
              (events_of (before_close rs))) /\
  List.length (printed (watchLoop rs)) = List.length (before_close rs) /\
  watchLoop rs = watchLoop (before_close rs).
Proof.
  induction rs as [|[[err|]|[e|]] rest [IHa [IHp IHw]]]; try (now repeat split).
  - cbn [watchLoop before_close events_of flat_map app].
    repeat split; cbn [added printed flat_map app List.length];
      [exact IHa | now rewrite <- IHp | now rewrite <- IHw].
  - cbn [watchLoop before_close events_of flat_map app filter].
    rewrite added_app, printed_app, length_app, added_on_event,
      printed_on_event, <- is_new_directory_bits.
    repeat split.
    + fold (events_of (before_close rest)).
      destruct (is_new_directory e); cbn [map app]; now rewrite IHa.
    + now rewrite IHp.
    + now rewrite <- IHw.
Qed.

(** ** Containment of operations *)

Section HasAlgebra.

Lemma Has_refl (o : Op) : Has o o = true.
Proof. unfold Has. rewrite Z.land_diag. apply Z.eqb_refl. Qed.

Lemma Has_antisym (a b : Op) : Has a b = true -> Has b a = true -> a = b.
Proof.
  unfold Has. rewrite !Z.eqb_eq. intros H1 H2.
  rewrite <- H2, Z.land_comm. exact H1.
Qed.

Lemma Has_trans (a b c : Op) : Has a b = true -> Has b c = true -> Has a c = true.
Proof.
  rewrite !Has_true_iff. intros H1 H2 i Hi. apply H1, H2, Hi.
Qed.

Lemma Has_land (o x h : Op) : Has (Z.land o x) h = Has o h && Has x h.
Proof.
  apply eq_true_iff_eq. rewrite andb_true_iff, !Has_true_iff. split.
  - intros H. split; intros i Hi; specialize (H i Hi);
      rewrite Z.land_spec in H; apply andb_true_iff in H; tauto.
  - intros [H1 H2] i Hi. rewrite Z.land_spec, (H1 i Hi), (H2 i Hi). reflexivity.
Qed.

Lemma Has_lor_l (o x h : Op) : Has o h = true -> Has (Z.lor o x) h = true.
Proof.
  rewrite !Has_true_iff. intros H i Hi. rewrite Z.lor_spec, (H i Hi). reflexivity.
Qed.

End HasAlgebra.

(** X8. [Has] orders the operations: every [Op] has itself, two that have
    each other are equal, and what is had by something [o] has is had by
    [o]. *)
Theorem Has_partial_order :
  (forall o : Op, Has o o = true) /\
  (forall a b : Op, Has a b = true -> Has b a = true -> a = b) /\
  (forall a b c : Op, Has a b = true -> Has b c = true -> Has a c = true).
Proof.
  split; [exact Has_refl|]. split; [exact Has_antisym | exact Has_trans].
Qed.

(** X8 on the event masks: what has IN_ALL_EVENTS has IN_CLOSE, hence
    IN_CLOSE_WRITE. *)
Lemma Has_partial_order_witness :
  (Has IN_ALL_EVENTS IN_CLOSE = true /\ Has IN_CLOSE IN_CLOSE_WRITE = true) /\
  Has IN_ALL_EVENTS IN_CLOSE_WRITE = true /\
  IN_CLOSE = Z.lor IN_CLOSE_WRITE IN_CLOSE_NOWRITE.
Proof.
  split; [split; reflexivity|]. split.
  - apply (proj2 (proj2 Has_partial_order) IN_ALL_EVENTS IN_CLOSE IN_CLOSE_WRITE);
      reflexivity.
  - apply (proj1 (proj2 Has_partial_order)); reflexivity.
Defined.

(** X9. Combining two bitmasks: the intersection [o & x] has [h] exactly
    when both have it; the union [o | x] has whatever one of them has, and
    always has [x]; but the union may have an operation that neither has,
    as IN_CLOSE for IN_CLOSE_WRITE and IN_CLOSE_NOWRITE. *)
Theorem Has_intersection_union :
  (forall o x h : Op, Has (Z.land o x) h = Has o h && Has x h) /\
  (forall o x h : Op, Has o h || Has x h = true -> Has (Z.lor o x) h = true) /\
  (forall o x : Op, Has (Z.lor o x) x = true) /\
  (Has (Z.lor IN_CLOSE_WRITE IN_CLOSE_NOWRITE) IN_CLOSE = true /\
   Has IN_CLOSE_WRITE IN_CLOSE = false /\
   Has IN_CLOSE_NOWRITE IN_CLOSE = false).
Proof.
  split; [exact Has_land|]. split; [|split].
  - intros o x h H. apply orb_true_iff in H. destruct H as [H|H].
    + now apply Has_lor_l.
    + rewrite Z.lor_comm. now apply Has_lor_l.
  - intros o x. rewrite Z.lor_comm. apply Has_lor_l, Has_refl.
  - repeat split.
Qed.

(** X9 at IN_CREATE and IN_ISDIR. *)
Lemma Has_intersection_union_witness :
  Has IN_CREATE IN_CREATE || Has IN_ISDIR IN_CREATE = true /\
  Has (Z.lor IN_CREATE IN_ISDIR) IN_CREATE = true.
Proof.
  split; [reflexivity|].
  apply (proj1 (proj2 Has_intersection_union)). reflexivity.
Defined.

(** ** Which paths are taken as recursive *)

Section RecursiveFlag.

Lemma separator_is_slash (c : ascii) : IsPathSeparator c = true -> c = "/"%char.
Proof. apply Ascii.eqb_eq. Qed.

Lemma take_drop_while (p : ascii -> bool) (l : bytes) :
  (take_while p l ++ drop_while p l)%list = l.
Proof.
  induction l as [|c l IH]; [reflexivity|].
  simpl. destruct (p c); [simpl; now rewrite IH | reflexivity].
Qed.

Lemma take_while_separators (l : bytes) :
  take_while IsPathSeparator l =
  separators (List.length (take_while IsPathSeparator l)).
Proof.
  induction l as [|c l IH]; [reflexivity|].
  simpl. destruct (IsPathSeparator c) eqn:E; [|reflexivity].
  apply separator_is_slash in E. subst c. simpl. unfold separators in *.
  simpl. now rewrite <- IH.
Qed.

Lemma drop_while_separators (k : nat) (l : bytes) :
  drop_while IsPathSeparator (separators k ++ l) = drop_while IsPathSeparator l.
Proof. induction k as [|k IH]; [reflexivity | exact IH]. Qed.

Lemma rev_separators (k : nat) : rev (separators k) = separators k.
Proof. apply rev_repeat. Qed.

(** Trailing separators are what [Base] removes first. *)
Lemma strip_separators (l : bytes) (k : nat) :
  strip_trailing_separators (l ++ separators k) = strip_trailing_separators l.
Proof.
  unfold strip_trailing_separators.
  now rewrite rev_app_distr, rev_separators, drop_while_separators.
Qed.

Lemma strip_decompose (l : bytes) :
  exists k, l = (strip_trailing_separators l ++ separators k)%list.
Proof.
  exists (List.length (take_while IsPathSeparator (rev l))).
  unfold strip_trailing_separators.
  rewrite <- rev_separators, <- take_while_separators, <- rev_app_distr.
  now rewrite take_drop_while, rev_involutive.
Qed.

Lemma last_separator_decompose (s : bytes) :
  s = (upto_last_separator s ++ after_last_separator s)%list /\
  (upto_last_separator s = [] \/
   exists p, upto_last_separator s = (p ++ ["/"%char])%list).
Proof.
  unfold upto_last_separator, after_last_separator. split.
  - rewrite <- rev_app_distr, take_drop_while. now rewrite rev_involutive.
  - destruct (drop_while (fun c => negb (IsPathSeparator c)) (rev s))
      as [|c m] eqn:E; [now left | right].
    assert (Hc : IsPathSeparator c = true).
    { clear - E. induction (rev s) as [|x l IH]; [discriminate E|].
      simpl in E. destruct (IsPathSeparator x) eqn:Ex; simpl in E.
      - inversion E; subst. exact Ex.
      - now apply IH. }
    apply separator_is_slash in Hc. subst c. exists (rev m). reflexivity.
Qed.

Lemma Base_bytes_dots_iff (l : bytes) :
  Base_bytes l = dots <->
  exists k, l = (dots ++ separators k)%list \/
            exists p, l = (p ++ "/"%char :: dots ++ separators k)%list.
Proof.
  split.
  - intros H. destruct l as [|x l']; [discriminate H|].
    remember (x :: l') as l eqn:El.
    assert (B : Base_bytes l =
                let a := after_last_separator (strip_trailing_separators l) in
                match a with
                | [] => ["/"%char]
                | _ => a
                end) by (subst l; reflexivity).
    rewrite B in H. clear B. cbv zeta in H.
    destruct (strip_decompose l) as [k Hk]. exists k.
    set (s := strip_trailing_separators l) in *.
    destruct (last_separator_decompose s) as [Hs Hu].
    destruct (after_last_separator s) as [|a r] eqn:Ea; [discriminate H|].
    rewrite H in Hs.
    destruct Hu as [Hu | [p Hu]]; rewrite Hu in Hs.
    + left. rewrite Hk, Hs. reflexivity.
    + right. exists p. rewrite Hk, Hs, <- !app_assoc. reflexivity.
  - intros [k [H | [p H]]]; subst l.
    + unfold Base_bytes. simpl app at 1. cbv iota.
      change ("."%char :: ("."%char :: "."%char :: [])%list ++ separators k)%list
        with (dots ++ separators k)%list.
      rewrite strip_separators. reflexivity.
    + unfold Base_bytes.
      destruct (p ++ "/"%char :: dots ++ separators k)%list as [|x l'] eqn:E.
      { now destruct p. }
      rewrite <- E. clear E x l'.
      change (p ++ "/"%char :: dots ++ separators k)%list
        with (p ++ ("/"%char :: dots) ++ separators k)%list.
      rewrite app_assoc, strip_separators.
      rewrite strip_element, after_last_element by (reflexivity || discriminate).
      reflexivity.
Qed.

Lemma string_of_list_ascii_app (a b : bytes) :
  string_of_list_ascii (a ++ b) =
  (string_of_list_ascii a ++ string_of_list_ascii b)%string.
Proof. induction a as [|c a IH]; simpl; [reflexivity | now rewrite IH]. Qed.

End RecursiveFlag.

(** X10. [recursivePath] sets the flag exactly for the paths that are
    ["..."] or end in ["/..."], each followed by any number of separators;
    every other path comes back unchanged with the flag off. *)
Theorem recursivePath_flag_iff (path : string) :
  (snd (recursivePath path) = true <->
   exists k,
     path = ("..." ++ separators_string k)%string \/
     exists p, path = (p ++ "/..." ++ separators_string k)%string) /\
  (snd (recursivePath path) = false -> recursivePath path = (path, false)).
Proof.
  assert (F : snd (recursivePath path) = true <->
              Base_bytes (list_ascii_of_string path) = dots).
  { unfold recursivePath, Base.
    destruct (String.eqb_spec
                (string_of_list_ascii (Base_bytes (list_ascii_of_string path)))
                "...") as [E|E]; cbn [snd].
    - split; [intros _|reflexivity].
      apply (f_equal list_ascii_of_string) in E.
      now rewrite list_ascii_of_string_of_list_ascii in E.
    - split; [discriminate|]. intros H. exfalso. apply E. now rewrite H. }
  split.
  - rewrite F, Base_bytes_dots_iff. unfold separators_string.
    split; intros [k H]; exists k.
    + destruct H as [H | [p H]]; apply (f_equal string_of_list_ascii) in H;
        rewrite string_of_list_ascii_of_string in H; rewrite H.
      * left. now rewrite string_of_list_ascii_app.
      * right. exists (string_of_list_ascii p).
        change ("/"%char :: dots ++ separators k)%list
          with (list_ascii_of_string "/..." ++ separators k)%list.
        now rewrite !string_of_list_ascii_app, string_of_list_ascii_of_string.
    + destruct H as [H | [p H]]; subst path.
      * left. now rewrite list_ascii_of_string_app,
          list_ascii_of_string_of_list_ascii.
      * right. exists (list_ascii_of_string p).
        now rewrite !list_ascii_of_string_app,
          list_ascii_of_string_of_list_ascii.
  - unfold recursivePath. destruct (String.eqb _ _); [discriminate | reflexivity].
Qed.

(** X10 at the path ["a/"]. *)
Lemma recursivePath_flag_iff_witness :
  snd (recursivePath "a/") = false /\ recursivePath "a/" = ("a/"%string, false).
Proof.
  split; [reflexivity|].
  apply (proj2 (recursivePath_flag_iff "a/")). reflexivity.
Defined.

(** ** The list [GetDirNames] returns *)

Section WalkOrder.

Variable SkipDir : error.
Variable lstat_root : string -> stat.

Lemma roots_failure_app (a b : list string) :
  roots_failure lstat_root (a ++ b) =
  match roots_failure lstat_root a with
  | Some e => Some e
  | None => roots_failure lstat_root b
  end.
Proof.
  induction a as [|v a IH]; [reflexivity|].
  simpl. destruct (root_failure lstat_root v); [reflexivity | exact IH].
Qed.

Lemma GetDirNames_visit (names : list string) :
  GetDirNames SkipDir lstat_root names =
  match roots_failure lstat_root names with
  | Some e => Exit e
  | None =>
      let all := map fst (flat_map (root_entries lstat_root) names) in
      Ret (all, None) all
  end.
Proof. unfold GetDirNames. now rewrite range_names_visit. Qed.

(** The entries of a tree start with its root. *)
Lemma tree_entries_head (path : string) (node : fsnode) :
  exists d tl, tree_entries path node = (path, d) :: tl.
Proof. destruct node; simpl; eauto. Qed.

Lemma root_in_entries (v : string) :
  root_failure lstat_root v = None ->
  In v (map fst (root_entries lstat_root v)).
Proof.
  unfold root_failure, root_entries.
  destruct (lstat_root v) as [e|node]; [discriminate|]. intros _.
  destruct (tree_entries_head v node) as [d [tl ->]]. now left.
Qed.

Lemma roots_in_entries (names : list string) :
  roots_failure lstat_root names = None ->
  incl names (map fst (flat_map (root_entries lstat_root) names)).
Proof.
  induction names as [|v rest IH]; intros H x Hx; [destruct Hx|].
  simpl in H. destruct (root_failure lstat_root v) eqn:Hv; [discriminate|].
  simpl flat_map. rewrite map_app. apply in_or_app.
  destruct Hx as [<-|Hx]; [left; now apply root_in_entries | right; now apply IH].
Qed.

(** Where an element of a concatenation lies. *)
Lemma app_eq_middle {A} (l1 l2 pre post : list A) (x : A) :
  (l1 ++ l2 = pre ++ x :: post)%list ->
  (exists mid, l1 = pre ++ x :: mid)%list \/
  (exists mid, pre = l1 ++ mid /\ l2 = mid ++ x :: post)%list.
Proof.
  revert pre. induction l1 as [|a l1 IH]; intros pre E.
  - right. exists pre. now split.
  - destruct pre as [|b pre]; simpl in E; inversion E; subst.
    + left. now exists l1.
    + destruct (IH pre H1) as [[mid ->] | [mid [-> ->]]].
      * left. now exists mid.
      * right. now exists mid.
Qed.

(** The paths of the nodes are the paths of the entries. *)
Lemma tree_nodes_paths (node : fsnode) :
  forall path, map fst (tree_nodes path node) = map fst (tree_entries path node).
Proof.
  induction node as [ | e | entries HF] using fsnode_induction;
    intros path; try reflexivity.
  cbn [tree_nodes tree_entries map fst]. f_equal.
  induction HF as [|[name [err | child]] rest Hchild _ IHrest].
  - reflexivity.
  - exact IHrest.
  - cbn [snd] in Hchild. now rewrite !map_app, Hchild, IHrest.
Qed.

Lemma roots_nodes_paths (names : list string) :
  map fst (flat_map (root_nodes lstat_root) names) =
  map fst (flat_map (root_entries lstat_root) names).
Proof.
  induction names as [|v rest IH]; [reflexivity|].
  cbn [flat_map]. rewrite !map_app, IH. f_equal.
  unfold root_nodes, root_entries.
  destruct (lstat_root v); [reflexivity | apply tree_nodes_paths].
Qed.

(** Below a node, whatever is not the node itself hangs in a directory
    listed before it, under the name it is joined with. *)
Lemma tree_nodes_parent (node : fsnode) :
  forall path pre x post,
    tree_nodes path node = (pre ++ x :: post)%list ->
    (pre = [] /\ x = (path, node)) \/
    exists d es name,
      In (d, Directory es) pre /\ In (name, inr (snd x)) es /\
      fst x = Join d name.
Proof.
  induction node as [ | e | entries HF] using fsnode_induction;
    intros path pre x post E.
  - destruct pre as [|a [|b pre]]; simpl in E; inversion E; subst. now left.
  - destruct pre as [|a [|b pre]]; simpl in E; inversion E; subst. now left.
  - cbn [tree_nodes] in E.
    destruct pre as [|a pre]; simpl in E; inversion E as [[Ea Eb]]; subst;
      [now left | right]. clear E.
    assert (Q : forall es,
               Forall (fun p : string * stat =>
                         match snd p with
                         | inl _ => True
                         | inr child =>
                             forall path pre x post,
                               tree_nodes path child = (pre ++ x :: post)%list ->
                               (pre = [] /\ x = (path, child)) \/
                               exists d es name,
                                 In (d, Directory es) pre /\
                                 In (name, inr (snd x)) es /\
                                 fst x = Join d name
                         end) es ->
               incl es entries ->
               forall pre,
                 (fix below (es : list (string * stat)) : list (string * fsnode) :=
                    match es with
                    | [] => []
                    | (_, inl _) :: rest => below rest
                    | (name, inr child) :: rest =>
                        (tree_nodes (Join path name) child ++ below rest)%list
                    end) es = (pre ++ x :: post)%list ->
                 exists d es' name,
                   ((d, es') = (path, entries) \/ In (d, Directory es') pre) /\
                   In (name, inr (snd x)) es' /\ fst x = Join d name).
    { intros es Hes.
      induction Hes as [|[name [err | child]] rest Hchild _ IHrest];
        intros Hincl pre0 Eb0.
      - destruct pre0; discriminate Eb0.
      - apply IHrest; [|exact Eb0]. intros p Hp. apply Hincl. now right.
      - cbn [snd] in Hchild. apply app_eq_middle in Eb0.
        destruct Eb0 as [[mid Em] | [mid [-> Em]]].
        + destruct (Hchild _ _ _ _ Em) as [[-> ->] | [d [es' [nm [Hd [Hn Ex]]]]]].
          * exists path, entries, name. split; [now left|]. split; [|reflexivity].
            apply Hincl. now left.
          * exists d, es', nm. split; [now right | now split].
        + destruct (IHrest (fun p Hp => Hincl p (or_intror Hp)) _ Em)
            as [d [es' [nm [Hd [Hn Ex]]]]].
          exists d, es', nm. split; [|now split].
          destruct Hd as [Hd|Hd]; [now left | right].
          apply in_or_app. now right. }
    destruct (Q entries HF (fun p Hp => Hp) pre Eb) as [d [es' [nm [Hd [Hn Ex]]]]].
    exists d, es', nm. split; [|now split].
    destruct Hd as [Hd|Hd]; [left; now inversion Hd | now right].
Qed.

Lemma roots_nodes_parent (names : list string) :
  forall pre x post,
    flat_map (root_nodes lstat_root) names = (pre ++ x :: post)%list ->
    (In (fst x) names /\ lstat_root (fst x) = inr (snd x)) \/
    exists d es name,
      In (d, Directory es) pre /\ In (name, inr (snd x)) es /\
      fst x = Join d name.
Proof.
  induction names as [|v rest IH]; intros pre x post E.
  - destruct pre; discriminate E.
  - cbn [flat_map] in E. apply app_eq_middle in E.
    destruct E as [[mid Em] | [mid [-> Em]]].
    + unfold root_nodes in Em. destruct (lstat_root v) as [e|node] eqn:Ev.
      { destruct pre; discriminate Em. }
      destruct (tree_nodes_parent node _ _ _ _ Em) as [[_ ->] | H].
      * left. split; [now left | exact Ev].
      * now right.
    + destruct (IH _ _ _ Em) as [[H L] | [d [es [nm [Hd [Hn Ex]]]]]].
      * left. split; [now right | exact L].
      * right. exists d, es, nm. split; [|now split].
        apply in_or_app. now right.
Qed.

End WalkOrder.

(** X11. Walking the roots [a ++ b] is walking [a] and then [b]: a failure
    under [a] ends the process before [b] is looked at, a failure under [b]
    ends it all the same, and otherwise the list returned is the list for
    [a] followed by the list for [b]; a root given twice is listed
    twice. *)
Theorem GetDirNames_app
  (SkipDir : error) (lstat_root : string -> stat) (a b : list string) :
  GetDirNames SkipDir lstat_root (a ++ b) =
  match GetDirNames SkipDir lstat_root a with
  | Exit e => Exit e
  | Ret (fa, _) _ =>
      match GetDirNames SkipDir lstat_root b with
      | Exit e => Exit e
      | Ret (fb, _) _ => Ret ((fa ++ fb)%list, None) (fa ++ fb)%list
      end
  end.
Proof.
  rewrite !GetDirNames_visit, roots_failure_app.
  destruct (roots_failure lstat_root a); [reflexivity|].
  destruct (roots_failure lstat_root b); [reflexivity|].
  cbv zeta. now rewrite flat_map_app, map_app.
Qed.

(** X12. When [GetDirNames] returns, every root it was given is in the
    list, as it was written. *)
Theorem GetDirNames_lists_roots
  (SkipDir : error) (lstat_root : string -> stat) (names files : list string)
  (err : option error) (st : list string) :
  GetDirNames SkipDir lstat_root names = Ret (files, err) st ->
  incl names files.
Proof.
  rewrite GetDirNames_visit.
  destruct (roots_failure lstat_root names) eqn:F; [discriminate|].
  cbv zeta. intros E. inversion E; subst. now apply roots_in_entries.
Qed.

(** X12 on the sample tree. *)
Lemma GetDirNames_lists_roots_witness :
  incl ["d"%string] ["d"%string; "d/f"%string; "d/s"%string; "d/s/g"%string].
Proof.
  apply (GetDirNames_lists_roots sample_SkipDir sample_lstat ["d"%string]
           ["d"%string; "d/f"%string; "d/s"%string; "d/s/g"%string] None
           ["d"%string; "d/f"%string; "d/s"%string; "d/s/g"%string]).
  vm_compute. reflexivity.
Defined.

(** X13. When [GetDirNames] returns, its list is the pre-order list of
    the nodes under the roots, and every node in it is a root, found there
    by [Lstat], or hangs under the name [name] in a directory that stands
    before it in the list, at the path [Join d name] for that directory's
    path [d]: no entry is listed without its directory standing before
    it, and only roots and entries of listed directories are listed. *)
Theorem GetDirNames_parent_first
  (SkipDir : error) (lstat_root : string -> stat) (names files : list string)
  (err : option error) (st : list string) :
  GetDirNames SkipDir lstat_root names = Ret (files, err) st ->
  files = map fst (flat_map (root_nodes lstat_root) names) /\
  forall pre x post,
    flat_map (root_nodes lstat_root) names = (pre ++ x :: post)%list ->
    (In (fst x) names /\ lstat_root (fst x) = inr (snd x)) \/
    exists d es name,
      In (d, Directory es) pre /\ In (name, inr (snd x)) es /\
      fst x = Join d name.
Proof.
  rewrite GetDirNames_visit.
  destruct (roots_failure lstat_root names) eqn:F; [discriminate|].
  cbv zeta. intros E. inversion E as [[Ef Ee Es]]. clear E Ee Es.
  split; [now rewrite roots_nodes_paths|].
  apply roots_nodes_parent.
Qed.

(** X13 on the sample tree: the list, and the file ["d/s/g"], which hangs
    under the name ["g"] in the directory at ["d/s"]. *)
Lemma GetDirNames_parent_first_witness :
  ["d"%string; "d/f"%string; "d/s"%string; "d/s/g"%string] =
    map fst (flat_map (root_nodes sample_lstat) ["d"%string]) /\
  ((In "d/s/g"%string ["d"%string] /\ sample_lstat "d/s/g" = inr Regular) \/
   exists d es name,
     In (d, Directory es)
        [("d"%string, sample_tree); ("d/f"%string, Regular);
         ("d/s"%string, Directory [("g"%string, inr Regular)])] /\
     In (name, inr Regular) es /\ "d/s/g"%string = Join d name).
Proof.
  pose proof (GetDirNames_parent_first sample_SkipDir sample_lstat ["d"%string]
                ["d"%string; "d/f"%string; "d/s"%string; "d/s/g"%string] None
                ["d"%string; "d/f"%string; "d/s"%string; "d/s/g"%string]
                ltac:(vm_compute; reflexivity)) as [L P].
  split; [exact L|].
  exact (P [("d"%string, sample_tree); ("d/f"%string, Regular);
            ("d/s"%string, Directory [("g"%string, inr Regular)])]
           ("d/s/g"%string, Regular) [] eq_refl).
Defined.

(** ** The shape of the rendered operation *)

(** X14. The stringifier never returns the empty string, so the slice
    [b.String()[1:]] is never taken of an empty builder; and no field
    between bars is empty: the string neither starts nor ends with a bar
    and has no two bars in a row. *)
Theorem Op_String_fields_nonempty (o : Op) :
  Op_String o <> EmptyString /\
  Forall (fun field => field <> EmptyString) (split_bar (Op_String o)).
Proof.
  assert (F : Forall (fun field => field <> EmptyString) (split_bar (Op_String o))).
  { rewrite split_bar_Op_String.
    destruct (names_of o) as [|n r] eqn:En.
    - repeat constructor. discriminate.
    - rewrite <- En. apply Forall_forall. intros x Hx.
      apply (names_of_subflags o) in Hx. simpl in Hx.
      repeat (destruct Hx as [<-|Hx]; [discriminate|]). destruct Hx. }
  split; [|exact F].
  intros E. rewrite E in F. inversion F as [|? ? H _]. now apply H.
Qed.
